(** * Scale-space keypoint detection (keypointDetect.py)

    A shallow embedding of [src/cmu_cv/panorama/src/keypointDetect.py]:
    the Gaussian pyramid, the difference-of-Gaussians (DoG) pyramid, the
    principal-curvature ratio and the extraction of local extrema.

    Conventions of the embedding.
    - A numpy array is its [dtype], its [shape] and its element access; an
      element outside the shape is never read by the code.  The arrays of
      numbers are 8-bit images ([uint8], as [cv2.imread] returns them) and
      floating-point arrays ([float_], for [float32] and [float64]); the
      masks are arrays of [bool].
    - A pixel is a rational number: every finite floating-point value is
      one, and comparison, [max], [min] and [abs] are exact on them.  The
      arithmetic of [uint8] arrays (modulo 256) is written out; the rounding
      of the arithmetic of floating-point arrays is not modelled.
    - The scalars [sigma0] and [k] are Python numbers: an [int], a [float]
      or a NumPy [float64].  Their arithmetic is that of binary64, on
      which the kernel size depends.
    - A Python exception is its class name and the function of the source
      whose statement raised it.
    - The functions of Python, numpy and scipy.ndimage that the source calls
      ([**], [np.floor], [np.stack], [np.where], [np.concatenate],
      [maximum_filter], ...) are written out after their documented
      behaviour (NumPy 2.1 or later); the functions of OpenCV
      ([cv2.cvtColor], [cv2.GaussianBlur], [cv2.Sobel]) and the function
      [pow] of the C library are parameters of the development. *)

From Stdlib Require Import List ZArith QArith Qround Qabs Qpower Lia String Bool
  Arith Sorted PrimFloat FloatOps SpecFloat.
Import ListNotations.

Set Implicit Arguments.

Close Scope Q_scope.
Open Scope nat_scope.

(** ** Exceptions and results *)

Record exception : Type := Exc { exc_type : string; exc_in : string }.

Inductive result (A : Type) : Type :=
| Ok (a : A)
| Raise (e : exception).

Arguments Ok {A} a.
Arguments Raise {A} e.

Definition bind {A B : Type} (r : result A) (f : A -> result B) : result B :=
  match r with
  | Ok a => f a
  | Raise e => Raise e
  end.

Notation "x <- r ;; k" := (bind r (fun x => k))
  (at level 61, r at next level, right associativity).

(** A [for] loop that appends one value per iteration to a Python list and
    stops at the first exception. *)
Fixpoint for_append {A B : Type} (body : A -> result B) (l : list A)
  : result (list B) :=
  match l with
  | [] => Ok []
  | a :: l' => b <- body a ;; bs <- for_append body l' ;; Ok (b :: bs)
  end.

(** A [for] loop that updates a variable [s] at every iteration and stops at
    the first exception. *)
Fixpoint for_update {A S : Type} (body : S -> A -> result S) (l : list A)
    (s : S) : result S :=
  match l with
  | [] => Ok s
  | a :: l' => s' <- body s a ;; for_update body l' s'
  end.

Definition raises (A : Type) (ty : string) (r : result A) : Prop :=
  exists e, r = Raise e /\ exc_type e = ty.

Definition returns (A : Type) (r : result A) : Prop := exists a, r = Ok a.

(** ** Arrays *)

Inductive dtype : Type := bool_ | uint8 | float_.

(** A two-dimensional array [a] of shape [(rows, cols)]; [at2 a y x] is
    [a[y, x]]. *)
Record array2 (A : Type) : Type :=
  Array2 { dtype2 : dtype; rows : nat; cols : nat; at2 : nat -> nat -> A }.

(** A three-dimensional array [a] of shape [(imH, imW, nlev)]; [at3 a y x l]
    is [a[y, x, l]]. *)
Record array3 (A : Type) : Type :=
  Array3 { dtype3 : dtype; imH : nat; imW : nat; nlev : nat;
           at3 : nat -> nat -> nat -> A }.

Definition shape2 {A : Type} (a : array2 A) : nat * nat := (rows a, cols a).

Definition shape3 {A : Type} (a : array3 A) : nat * nat * nat :=
  (imH a, imW a, nlev a).

Definition same_shape {A : Type} (a b : array2 A) : bool :=
  (rows a =? rows b) && (cols a =? cols b).

(** Elementwise operations that keep the dtype; the operands of the source
    always have one shape, which is the shape of the result. *)
Definition map2 {A B : Type} (f : A -> B) (a : array2 A) : array2 B :=
  Array2 (dtype2 a) (rows a) (cols a) (fun y x => f (at2 a y x)).

Definition zip2 {A B C : Type} (f : A -> B -> C) (a : array2 A) (b : array2 B)
  : array2 C :=
  Array2 (dtype2 a) (rows a) (cols a) (fun y x => f (at2 a y x) (at2 b y x)).

(** Elementwise tests and comparisons, whose result is a mask. *)
Definition test2 {A : Type} (f : A -> bool) (a : array2 A) : array2 bool :=
  Array2 bool_ (rows a) (cols a) (fun y x => f (at2 a y x)).

Definition compare2 {A B : Type} (f : A -> B -> bool) (a : array2 A)
    (b : array2 B) : array2 bool :=
  Array2 bool_ (rows a) (cols a) (fun y x => f (at2 a y x) (at2 b y x)).

(** The value that an array of dtype [d] holds for the exact result [v] of
    an operation of numpy: [uint8] wraps modulo 256 and [bool] keeps whether
    the result is zero. *)
Definition wrap (d : dtype) (v : Q) : Q :=
  match d with
  | bool_ => if Qeq_bool v 0 then 0%Q else 1%Q
  | uint8 => inject_Z (Qfloor v mod 256)
  | float_ => v
  end.

(** [a + b], [a * b] and [a ** n] on arrays of one dtype. *)
Definition arith2 (f : Q -> Q -> Q) (a b : array2 Q) : array2 Q :=
  zip2 (fun u v => wrap (dtype2 a) (f u v)) a b.

Definition np_power (a : array2 Q) (n : Z) : array2 Q :=
  map2 (fun u => wrap (dtype2 a) (u ^ n)%Q) a.

(** [a - b], which numpy refuses on arrays of [bool]. *)
Definition np_subtract (fn : string) (a b : array2 Q) : result (array2 Q) :=
  match dtype2 a with
  | bool_ => Raise (Exc "TypeError" fn)
  | _ => Ok (arith2 Qminus a b)
  end.

(** The value that the functions of OpenCV store in an image of dtype [d]
    for the exact result [v]: [saturate_cast] rounds to the nearest integer
    and clips to [0..255] for an 8-bit image. *)
Definition round_half_even (v : Q) : Z :=
  let f := Qfloor v in
  match ((v - inject_Z f) ?= 1 # 2)%Q with
  | Lt => f
  | Gt => (f + 1)%Z
  | Eq => if Z.even f then f else (f + 1)%Z
  end.

Definition saturate (d : dtype) (v : Q) : Q :=
  match d with
  | uint8 => inject_Z (Z.max 0 (Z.min 255 (round_half_even v)))
  | _ => v
  end.

(** [a[:, :, l]], which raises [IndexError] when [l] is not a level of [a]. *)
Definition level (fn : string) (a : array3 Q) (l : nat) : result (array2 Q) :=
  if l <? nlev a
  then Ok (Array2 (dtype3 a) (imH a) (imW a) (fun y x => at3 a y x l))
  else Raise (Exc "IndexError" fn).

(** The dtype of an array built from arrays of the dtypes [d1] and [d2]. *)
Definition promote (d1 d2 : dtype) : dtype :=
  match d1, d2 with
  | float_, _ | _, float_ => float_
  | uint8, _ | _, uint8 => uint8
  | bool_, bool_ => bool_
  end.

(** [np.stack(arrs, axis=-1)]: the list must not be empty and its arrays
    must have one shape. *)
Definition np_stack (fn : string) (arrs : list (array2 Q)) : result (array3 Q) :=
  match arrs with
  | [] => Raise (Exc "ValueError" fn)
  | a :: rest =>
      if forallb (same_shape a) rest
      then Ok (Array3 (fold_left promote (map (@dtype2 Q) rest) (dtype2 a))
                      (rows a) (cols a) (List.length arrs)
                      (fun y x l => at2 (nth l arrs a) y x))
      else Raise (Exc "ValueError" fn)
  end.

(** [range(n)] for a Python integer [n]. *)
Definition range (n : Z) : list nat := seq 0 (Z.to_nat n).

(** [range(a, b)]. *)
Definition range2 (a b : Z) : list nat := seq (Z.to_nat a) (Z.to_nat (b - a)%Z).

(** [len(l)]. *)
Definition len {A : Type} (l : list A) : Z := Z.of_nat (List.length l).

(** ** createDoGPyramid *)

Definition createDoGPyramid (gaussian_pyramid : array3 Q) (levels : list Z)
  : result (array3 Q * list Z) :=
  let DoG_levels := map Z.of_nat (range (len levels - 1)%Z) in
  DoG_pyramid <-
    for_append
      (fun i =>
         hi <- level "createDoGPyramid" gaussian_pyramid (i + 1) ;;
         lo <- level "createDoGPyramid" gaussian_pyramid i ;;
         np_subtract "createDoGPyramid" hi lo)
      (range (len levels - 1)%Z) ;;
  DoG_pyramid <- np_stack "createDoGPyramid" DoG_pyramid ;;
  Ok (DoG_pyramid, DoG_levels).

(** The difference image that the loop of [createDoGPyramid] appends for
    the index [i] when both levels exist and are not masks. *)
Definition DoG_level (gaussian_pyramid : array3 Q) (i : nat) : array2 Q :=
  Array2 (dtype3 gaussian_pyramid) (imH gaussian_pyramid) (imW gaussian_pyramid)
         (fun y x => wrap (dtype3 gaussian_pyramid)
                          (at3 gaussian_pyramid y x (i + 1) -
                           at3 gaussian_pyramid y x i)%Q).

(** [levels[1:]]. *)
Definition drop_first {A : Type} (l : list A) : list A := tl l.

(** ** Pixel comparisons *)

(** [np.maximum] and [np.minimum] on two pixels. *)
Definition qmax (a b : Q) : Q := if Qle_bool a b then b else a.
Definition qmin (a b : Q) : Q := if Qle_bool a b then a else b.

(** [a >= b] and [a <= b] on two pixels. *)
Definition qge (a b : Q) : bool := Qle_bool b a.
Definition qle (a b : Q) : bool := Qle_bool a b.

(** ** The filters of scipy.ndimage *)

(** Index [i] of an axis of length [n] under the boundary mode [reflect],
    the default of the filters: [(d c b a | a b c d | d c b a)]. *)
Definition reflect (n : nat) (i : Z) : nat :=
  if (i <? 0)%Z then Z.to_nat (- i - 1)
  else if (Z.of_nat n <=? i)%Z then Z.to_nat (2 * Z.of_nat n - i - 1)
  else Z.to_nat i.

Definition offsets3 : list Z := [-1; 0; 1]%Z.

(** The values under the window of [size=3] centred on [a[i, j]]. *)
Definition window3 (a : array2 Q) (i j : nat) : list Q :=
  map (fun d => at2 a (reflect (rows a) (Z.of_nat i + fst d))
                      (reflect (cols a) (Z.of_nat j + snd d)))
      (list_prod offsets3 offsets3).

(** [maximum_filter(a, size=3)] and [minimum_filter(a, size=3)]. *)
Definition maximum_filter (a : array2 Q) : array2 Q :=
  Array2 (dtype2 a) (rows a) (cols a)
         (fun i j => fold_left qmax (window3 a i j) (at2 a i j)).

Definition minimum_filter (a : array2 Q) : array2 Q :=
  Array2 (dtype2 a) (rows a) (cols a)
         (fun i j => fold_left qmin (window3 a i j) (at2 a i j)).

(** ** getLocalExtrema *)

(** A keypoint [(x, y, level)]: column, row and DoG level. *)
Definition keypoint : Type := (nat * nat * nat)%type.

(** [DoG_pyramid[1:imH-1, 1:imW-1, l]]; the slices are empty when the image
    has fewer than three rows or columns. *)
Definition interior (DoG_pyramid : array3 Q) (l : nat) : array2 Q :=
  Array2 (dtype3 DoG_pyramid) (imH DoG_pyramid - 2) (imW DoG_pyramid - 2)
         (fun i j => at3 DoG_pyramid (i + 1) (j + 1) l).

(** [np.where(mask == True)]: the indices of the true entries, by rows. *)
Definition np_where (mask : array2 bool) : list (nat * nat) :=
  filter (fun ij => at2 mask (fst ij) (snd ij))
         (list_prod (seq 0 (rows mask)) (seq 0 (cols mask))).

(** [np.concatenate(res)], which needs at least one array. *)
Definition np_concatenate {A : Type} (fn : string) (res : list (list A))
  : result (list A) :=
  match res with
  | [] => Raise (Exc "ValueError" fn)
  | _ => Ok (List.concat res)
  end.

(** The mask [is_extrema] of one level as it is first assigned: the pixels
    of the region that are extrema in space and in scale. *)
Definition local_extrema (DoG_pyramid : array3 Q) (l : nat) : array2 bool :=
  let region := interior DoG_pyramid l in
  let space_max := maximum_filter region in
  let space_min := minimum_filter region in
  let scale_lo := interior DoG_pyramid (l - 1) in
  let scale_hi := interior DoG_pyramid (l + 1) in
  let scale_max := maximum_filter (zip2 qmax scale_lo scale_hi) in
  let scale_min := minimum_filter (zip2 qmin scale_lo scale_hi) in
  zip2 orb (compare2 qge region (zip2 qmax space_max scale_max))
           (compare2 qle region (zip2 qmin space_min scale_min)).

(** The mask after [is_extrema &= (np.abs(region) >= th_contrast)]; the
    line that would use [principal_curvature] and [th_r] is a comment. *)
Definition is_extrema (DoG_pyramid : array3 Q) (th_contrast : Q) (l : nat)
  : array2 bool :=
  zip2 andb (local_extrema DoG_pyramid l)
       (test2 (fun v => qge (Qabs v) th_contrast) (interior DoG_pyramid l)).

(** The rows [(x, y, l)] of [np.hstack((coordinates, level))]: the indices
    are moved back to the frame of the image and swapped to [(x, y)], and
    the third column holds [l]. *)
Definition level_rows (DoG_pyramid : array3 Q) (th_contrast : Q) (l : nat)
  : list keypoint :=
  map (fun ij => (snd ij + 1, fst ij + 1, l))
      (np_where (is_extrema DoG_pyramid th_contrast l)).

(** The rows appended to [res] for level [l].  The column [level] is
    [l*np.ones(..., dtype=np.uint8)], in which the Python integer [l] must
    be a [uint8]: from [l = 256] on the product raises [OverflowError]. *)
Definition level_keypoints (DoG_pyramid : array3 Q) (th_contrast : Q) (l : nat)
  : result (list keypoint) :=
  if 255 <? l
  then Raise (Exc "OverflowError" "getLocalExtrema")
  else Ok (level_rows DoG_pyramid th_contrast l).

Definition getLocalExtrema {A : Type} (DoG_pyramid : array3 Q)
    (DoG_levels : list Z) (principal_curvature : array3 A)
    (th_contrast th_r : Q) : result (list keypoint) :=
  let levels := Z.of_nat (nlev DoG_pyramid) in
  res <- for_append (level_keypoints DoG_pyramid th_contrast)
                    (range2 1%Z (levels - 1)%Z) ;;
  np_concatenate "getLocalExtrema" res.

(** ** Python numbers *)

(** The value of [sigma0], of [k] and of the expressions built from them:
    a Python [int], a Python [float] or a NumPy [float64]. *)
Inductive number : Type :=
| PyInt (n : Z)
| PyFloat (x : float)
| NpFloat (x : float).

(** [float(n)]: the binary64 number nearest to [n] (ties to even), or [None]
    when [n] is too large for a float. *)
Definition float_of_Z (n : Z) : option float :=
  let x := SF2Prim (binary_normalize prec emax n 0 false) in
  if is_infinity x then None else Some x.

(** The integer part of a float, towards zero; 0 for an infinity or a NaN. *)
Definition trunc_float (x : float) : Z :=
  match Prim2SF x with
  | S754_finite s m e =>
      let n := Z.shiftl (Z.pos m) e in if s then (- n)%Z else n
  | _ => 0%Z
  end.

(** [np.floor(x)] for a float [x]. *)
Definition np_floor (x : float) : float :=
  match Prim2SF x with
  | S754_finite s m e =>
      SF2Prim (binary_normalize
                 prec emax (Z.shiftl (if s then Z.neg m else Z.pos m) e) 0 s)
  | _ => x
  end.

(** [int(x)] for a float [x]. *)
Definition py_int (fn : string) (x : float) : result Z :=
  if is_infinity x then Raise (Exc "OverflowError" fn)
  else if is_nan x then Raise (Exc "ValueError" fn)
  else Ok (trunc_float x).

(** The conversion of a Python [int] that meets a float in an operation. *)
Definition as_float (fn : string) (n : Z) : result float :=
  match float_of_Z n with
  | Some x => Ok x
  | None => Raise (Exc "OverflowError" fn)
  end.

(** [a * b]. *)
Definition py_mul (fn : string) (a b : number) : result number :=
  match a, b with
  | PyInt m, PyInt n => Ok (PyInt (m * n))
  | PyInt m, PyFloat y => x <- as_float fn m ;; Ok (PyFloat (x * y))
  | PyFloat x, PyInt n => y <- as_float fn n ;; Ok (PyFloat (x * y))
  | PyInt m, NpFloat y => x <- as_float fn m ;; Ok (NpFloat (x * y))
  | NpFloat x, PyInt n => y <- as_float fn n ;; Ok (NpFloat (x * y))
  | PyFloat x, PyFloat y => Ok (PyFloat (x * y))
  | PyFloat x, NpFloat y | NpFloat x, PyFloat y | NpFloat x, NpFloat y =>
      Ok (NpFloat (x * y))
  end.


(** The integer [int(np.floor(v) + 1)].  On a Python [int], [np.floor]
    gives an integer of 64 bits (signed, or unsigned from [2**63] on) whose
    sum with 1 wraps, and fails on an integer that has no 64 bits. *)
Definition floor_plus_one (fn : string) (v : number) : result Z :=
  match v with
  | PyInt n =>
      if ((- 2 ^ 63 <=? n) && (n <? 2 ^ 63))%Z
      then Ok ((n + 1 + 2 ^ 63) mod 2 ^ 64 - 2 ^ 63)%Z
      else if ((0 <=? n) && (n <? 2 ^ 64))%Z
      then Ok ((n + 1) mod 2 ^ 64)%Z
      else Raise (Exc "TypeError" fn)
  | PyFloat x | NpFloat x => py_int fn (np_floor x + 1)%float
  end.

Section Pow.

(** [pow(x, y)] of the C library, on which the powers of floats rely. *)
Variable pow : float -> float -> float.

(** [x ** i] for a Python [float] [x].  The cases that CPython decides
    before it calls [pow] are written out; an infinite result of [pow] is
    an [OverflowError]. *)
Definition float_pow (fn : string) (x : float) (i : Z) : result float :=
  iw <- as_float fn i ;;
  let odd := Z.odd (trunc_float iw) in
  if (i =? 0)%Z then Ok 1%float
  else if is_nan x then Ok x
  else if is_infinity x then
    Ok (if (0 <? i)%Z
        then (if odd then x else abs x)
        else (if odd && get_sign x then (- 0)%float else 0%float))
  else if (x =? 0)%float then
    if (i <? 0)%Z
    then Raise (Exc "ZeroDivisionError" fn)
    else Ok (if odd then x else 0%float)
  else
    let negate_result := (x <? 0)%float && odd in
    if (abs x =? 1)%float
    then Ok (if negate_result then (- 1)%float else 1%float)
    else
      let ix := pow (abs x) iw in
      if is_infinity ix
      then Raise (Exc "OverflowError" fn)
      else Ok (if negate_result then (- ix)%float else ix).

(** [k ** i] for a number [k] and a Python [int] [i]: a power of integers
    is exact for [i >= 0] and is a power of floats otherwise; a power of a
    NumPy [float64] is the result of [pow] as it is. *)
Definition py_pow (fn : string) (k : number) (i : Z) : result number :=
  match k with
  | PyInt n =>
      if (0 <=? i)%Z then Ok (PyInt (n ^ i))
      else x <- as_float fn n ;; p <- float_pow fn x i ;; Ok (PyFloat p)
  | PyFloat x => p <- float_pow fn x i ;; Ok (PyFloat p)
  | NpFloat x => iw <- as_float fn i ;; Ok (NpFloat (pow x iw))
  end.

(** The kernel size and the standard deviation that the loop of
    [createGaussianPyramid] passes to the blur for the level [i]. *)
Definition blur_args (sigma0 k : number) (i : Z) : result (Z * Z * number) :=
  p <- py_pow "createGaussianPyramid" k i ;;
  sigma_ <- py_mul "createGaussianPyramid" sigma0 p ;;
  s3 <- py_mul "createGaussianPyramid" (PyInt 3) sigma_ ;;
  s6 <- py_mul "createGaussianPyramid" s3 (PyInt 2) ;;
  size <- floor_plus_one "createGaussianPyramid" s6 ;;
  Ok (size, size, sigma_).

End Pow.

(** ** The stages that call OpenCV *)

(** The image given to the pipeline: [len(im.shape)] is 2 or 3. *)
Inductive image : Type :=
| Gray (im : array2 Q)
| Color (im : array3 Q).

(** The entries of an array, by rows. *)
Definition entries {A : Type} (a : array2 A) : list A :=
  map (fun ij => at2 a (fst ij) (snd ij))
      (list_prod (seq 0 (rows a)) (seq 0 (cols a))).

(** [a.max()], which raises [ValueError] on an array of size zero. *)
Definition np_amax (fn : string) (a : array2 Q) : result Q :=
  match entries a with
  | [] => Raise (Exc "ValueError" fn)
  | v :: vs => Ok (fold_left qmax vs v)
  end.

(** [np.float32(im)/255]. *)
Definition float32_div255 (im : array2 Q) : array2 Q :=
  Array2 float_ (rows im) (cols im) (fun y x => (at2 im y x / 255)%Q).

(** An element of an array of floats that a division of numpy has filled:
    a number, an infinity ([x/0]) or NaN ([0/0]). *)
Inductive fvalue : Type :=
| Finite (q : Q)
| Inf (negative : bool)
| NaN.

(** [a / b] on two elements; the result is a float for every dtype. *)
Definition true_divide (a b : Q) : fvalue :=
  if Qeq_bool b 0
  then (if Qeq_bool a 0 then NaN else Inf (negb (Qle_bool 0 a)))
  else Finite (a / b)%Q.

Definition np_true_divide (a b : array2 Q) : array2 fvalue :=
  Array2 float_ (rows a) (cols a)
         (fun y x => true_divide (at2 a y x) (at2 b y x)).

(** [10**(-10)], the value assigned where the determinant is zero. *)
Definition epsilon : Q := (1 # 10000000000)%Q.

(** The value that an array of dtype [d] stores when the float [v] is
    assigned to one of its elements: an array of integers keeps the integer
    part. *)
Definition stored (d : dtype) (v : Q) : Q :=
  match d with
  | bool_ => if Qeq_bool v 0 then 0%Q else 1%Q
  | uint8 => inject_Z (Z.quot (Qnum v) (Z.pos (Qden v)) mod 256)
  | float_ => v
  end.

(** [det[det==0.] = 10**(-10)]. *)
Definition fix_zeros (det : array2 Q) : array2 Q :=
  map2 (fun d => if Qeq_bool d 0 then stored (dtype2 det) epsilon else d) det.

(** [pc[:, :, l] = v]. *)
Definition set_level {A : Type} (pc : array3 A) (l : nat) (v : array2 A)
  : array3 A :=
  Array3 (dtype3 pc) (imH pc) (imW pc) (nlev pc)
         (fun y x l' => if l' =? l then at2 v y x else at3 pc y x l').

(** [np.zeros(shape)]. *)
Definition np_zeros (shape : nat * nat * nat) : array3 fvalue :=
  Array3 float_ (fst (fst shape)) (snd (fst shape)) (snd shape)
         (fun _ _ _ => Finite 0).

(** [DoG_pyramid[:, :, l]] for a level [l] of [range(DoG_pyramid.shape[-1])]. *)
Definition level_image (DoG_pyramid : array3 Q) (l : nat) : array2 Q :=
  Array2 (dtype3 DoG_pyramid) (imH DoG_pyramid) (imW DoG_pyramid)
         (fun y x => at3 DoG_pyramid y x l).

(** A call of OpenCV inside the function [fn]; [None] stands for
    [cv2.error]. *)
Definition cv2_call {A : Type} (fn : string) (r : option A) : result A :=
  match r with
  | Some a => Ok a
  | None => Raise (Exc "cv2.error" fn)
  end.

(** The images that the functions of OpenCV refuse whatever the operation:
    an array of [bool] and an image without pixels. *)
Definition cv2_refuses (d : dtype) (h w : nat) : bool :=
  match d with
  | bool_ => true
  | _ => (h =? 0) || (w =? 0)
  end.

Section OpenCV.

Variable pow : float -> float -> float.

(** The pixels of [cv2.cvtColor(im, cv2.COLOR_BGR2GRAY)]; [None] stands for
    [cv2.error]. *)
Variable cvtColor : array3 Q -> option (nat -> nat -> Q).

(** The pixels of [cv2.GaussianBlur(im, ksize, sigma)]; [None] stands for
    [cv2.error]. *)
Variable GaussianBlur : array2 Q -> Z * Z -> number -> option (nat -> nat -> Q).

(** The pixels of [cv2.Sobel(src, ddepth, dx, dy)] for an image that the
    function accepts. *)
Variable Sobel : array2 Q -> Z -> Z -> Z -> nat -> nat -> Q.

(** The three calls.  The output of each has the height, the width and
    (with [ddepth = -1]) the dtype of its input, and holds the pixels as
    that dtype stores them. *)
Definition cv2_cvtColor (fn : string) (im : array3 Q) : result (array2 Q) :=
  px <- cv2_call fn (if cv2_refuses (dtype3 im) (imH im) (imW im)
                     then None else cvtColor im) ;;
  Ok (Array2 (dtype3 im) (imH im) (imW im)
             (fun y x => saturate (dtype3 im) (px y x))).

Definition cv2_GaussianBlur (fn : string) (im : array2 Q) (ksize : Z * Z)
    (sigma : number) : result (array2 Q) :=
  px <- cv2_call fn (if cv2_refuses (dtype2 im) (rows im) (cols im)
                     then None else GaussianBlur im ksize sigma) ;;
  Ok (Array2 (dtype2 im) (rows im) (cols im)
             (fun y x => saturate (dtype2 im) (px y x))).

Definition cv2_Sobel (fn : string) (src : array2 Q) (ddepth dx dy : Z)
  : result (array2 Q) :=
  px <- cv2_call fn (if cv2_refuses (dtype2 src) (rows src) (cols src)
                     then None else Some (Sobel src ddepth dx dy)) ;;
  Ok (Array2 (dtype2 src) (rows src) (cols src)
             (fun y x => saturate (dtype2 src) (px y x))).

Definition createGaussianPyramid (im : image) (sigma0 k : number)
    (levels : list Z) : result (array3 Q) :=
  im <- match im with
        | Color c => cv2_cvtColor "createGaussianPyramid" c
        | Gray g => Ok g
        end ;;
  m <- np_amax "createGaussianPyramid" im ;;
  let im := if negb (Qle_bool m 10) then float32_div255 im else im in
  im_pyramid <-
    for_append
      (fun i =>
         a <- blur_args pow sigma0 k i ;;
         cv2_GaussianBlur "createGaussianPyramid" im (fst a) (snd a))
      levels ;;
  np_stack "createGaussianPyramid" im_pyramid.

(** The elements [dxx], [dxy] and [dyy] of the Hessian of one level. *)
Definition hessian (img : array2 Q)
  : result (array2 Q * array2 Q * array2 Q) :=
  dx <- cv2_Sobel "computePrincipalCurvature" img (-1) 1 0 ;;
  dy <- cv2_Sobel "computePrincipalCurvature" img (-1) 0 1 ;;
  dxx <- cv2_Sobel "computePrincipalCurvature" dx (-1) 1 0 ;;
  dxy <- cv2_Sobel "computePrincipalCurvature" dx (-1) 0 1 ;;
  dyy <- cv2_Sobel "computePrincipalCurvature" dy (-1) 0 1 ;;
  Ok (dxx, dxy, dyy).

(** The ratio assigned to [principal_curvature[:, :, l]] for the level
    [img]. *)
Definition curvature_of_level (img : array2 Q) : result (array2 fvalue) :=
  h <- hessian img ;;
  let '(dxx, dxy, dyy) := h in
  let det := arith2 Qminus (arith2 Qmult dxx dyy) (np_power dxy 2) in
  let det := fix_zeros det in
  Ok (np_true_divide (np_power (arith2 Qplus dxx dyy) 2) det).

Definition computePrincipalCurvature (DoG_pyramid : array3 Q)
  : result (array3 fvalue) :=
  for_update
    (fun principal_curvature l =>
       r <- curvature_of_level (level_image DoG_pyramid l) ;;
       Ok (set_level principal_curvature l r))
    (range (Z.of_nat (nlev DoG_pyramid)))
    (np_zeros (shape3 DoG_pyramid)).

Definition DoGdetector (im : image) (sigma0 k : number) (levels : list Z)
    (th_contrast th_r : Q) : result (list keypoint * array3 Q) :=
  gauss_pyramid <- createGaussianPyramid im sigma0 k levels ;;
  dog <- createDoGPyramid gauss_pyramid levels ;;
  principal_curvature <- computePrincipalCurvature (fst dog) ;;
  locsDoG <- getLocalExtrema (fst dog) (snd dog) principal_curvature
                             th_contrast th_r ;;
  Ok (locsDoG, gauss_pyramid).

End OpenCV.

(** ** Concrete arrays and instances of the parameters

    They are used to run the stages on explicit inputs. *)

(** [np.array(r)] for a list [r] of rows of floats of one length. *)
Definition of_rows (r : list (list Q)) : array2 Q :=
  Array2 float_ (List.length r) (List.length (hd [] r))
         (fun y x => nth x (nth y r []) 0%Q).

(** The pyramid of floats whose level [l] is [np.array(nth l ls [])]. *)
Definition of_levels (ls : list (list (list Q))) : array3 Q :=
  Array3 float_ (List.length (hd [] ls)) (List.length (hd [] (hd [] ls)))
         (List.length ls)
         (fun y x l => nth x (nth y (nth l ls []) []) 0%Q).

(** [a.astype(d)]. *)
Definition astype2 (d : dtype) (a : array2 Q) : array2 Q :=
  Array2 d (rows a) (cols a) (fun y x => stored d (at2 a y x)).

Definition astype3 (d : dtype) (a : array3 Q) : array3 Q :=
  Array3 d (imH a) (imW a) (nlev a) (fun y x l => stored d (at3 a y x l)).

(** An instance of [pow] for an exponent that is an integer, by repeated
    multiplication: it is exact where the power is a binary64 number. *)
Fixpoint pow_nat (x : float) (n : nat) : float :=
  match n with
  | 0 => 1%float
  | S n' => (x * pow_nat x n')%float
  end.

Definition pow_int (x y : float) : float :=
  let i := trunc_float y in
  if (0 <=? i)%Z
  then pow_nat x (Z.to_nat i)
  else (1 / pow_nat x (Z.to_nat (- i)))%float.

(** A blur that keeps the requirement of [cv2.GaussianBlur] on the kernel
    size (positive and odd) and copies the image, which is what the blur
    does for a kernel of size 1 and on an image of one intensity. *)
Definition blur_copy (im : array2 Q) (ksize : Z * Z) (sigma : number)
  : option (nat -> nat -> Q) :=
  let ok n := (0 <? n)%Z && Z.odd n in
  if ok (fst ksize) && ok (snd ksize) then Some (at2 im) else None.

(** Index [i] of an axis of length [n] under [BORDER_REFLECT_101], the
    default border of [cv2.Sobel]: [(d c b | a b c d | c b a)]. *)
Definition reflect101 (n : nat) (i : Z) : nat :=
  if n <=? 1 then 0
  else if (i <? 0)%Z then Z.to_nat (- i)
  else if (Z.of_nat n <=? i)%Z then Z.to_nat (2 * Z.of_nat n - i - 2)
  else Z.to_nat i.

(** The Sobel operator of aperture 3: the derivative kernel [-1 0 1] along
    the axis of order 1 and the smoothing kernel [1 2 1] along the other. *)
Definition sobel_kernel (order : Z) (d : Z) : Q :=
  if (order =? 0)%Z
  then (if (d =? 0)%Z then 2 else 1)%Q
  else inject_Z d.

Definition Sobel3 (src : array2 Q) (ddepth dx dy : Z) (y x : nat) : Q :=
  fold_left Qplus
    (flat_map
       (fun v =>
          map (fun u =>
                 (sobel_kernel dx u * sobel_kernel dy v *
                  at2 src (reflect101 (rows src) (Z.of_nat y + v))
                          (reflect101 (cols src) (Z.of_nat x + u)))%Q)
              offsets3)
       offsets3)
    0%Q.

(** The weights of [COLOR_BGR2GRAY]; the image must have 3 or 4 channels. *)
Definition cvt_luma (c : array3 Q) : option (nat -> nat -> Q) :=
  if (nlev c =? 3) || (nlev c =? 4)
  then Some (fun y x => ((114 # 1000) * at3 c y x 0 +
                         (587 # 1000) * at3 c y x 1 +
                         (299 # 1000) * at3 c y x 2)%Q)
  else None.

(** A pyramid of four levels of a flat 4x4 image, and a DoG pyramid of
    three levels whose middle level has a peak next to a larger value on
    the border of the image. *)
Definition flat4 (v : Q) : list (list Q) :=
  [[v; v; v; v]; [v; v; v; v]; [v; v; v; v]; [v; v; v; v]].

Definition flat_pyramid : array3 Q :=
  of_levels [flat4 1; flat4 1; flat4 1; flat4 1]%Q.

Definition peak_pyramid : array3 Q :=
  of_levels [flat4 0;
             [[9 # 10; 0; 0; 0];
              [0; 1 # 2; 0; 0];
              [0; 0; 0; 0];
              [0; 0; 0; 0]];
             flat4 0]%Q.

(** The same pyramid with a dark border. *)
Definition peak_pyramid_dark : array3 Q :=
  of_levels [flat4 0;
             [[0; 0; 0; 0];
              [0; 1 # 2; 0; 0];
              [0; 0; 0; 0];
              [0; 0; 0; 0]];
             flat4 0]%Q.

(** The default values of [levels], [th_contrast] and [th_r]. *)
Definition default_levels : list Z := [-1; 0; 1; 2; 3; 4]%Z.
Definition default_th_contrast : Q := (3 # 100)%Q.
Definition default_th_r : Q := 12%Q.

(** ** Vocabulary of the statements *)

(** The keypoints of [r2] are among those of [r1] and are no more, or both
    runs raise the same exception. *)
Definition narrows (r1 r2 : result (list keypoint)) : Prop :=
  match r1, r2 with
  | Ok k1, Ok k2 => incl k2 k1 /\ List.length k2 <= List.length k1
  | Raise e1, Raise e2 => e1 = e2
  | _, _ => False
  end.

(** The list of keypoints of a run of the pipeline. *)
Definition keypoints_of (r : result (list keypoint * array3 Q))
  : result (list keypoint) :=
  match r with
  | Ok out => Ok (fst out)
  | Raise e => Raise e
  end.

(** Two arrays of one shape with the same entries. *)
Definition agree2 {A : Type} (a b : array2 A) : Prop :=
  rows a = rows b /\ cols a = cols b /\
  forall i j, i < rows a -> j < cols a -> at2 a i j = at2 b i j.

(** Two pyramids of one shape that agree away from the outer border of
    one pixel. *)
Definition same_interior (D D' : array3 Q) : Prop :=
  shape3 D = shape3 D' /\
  forall y x l,
    1 <= y -> y + 1 < imH D -> 1 <= x -> x + 1 < imW D ->
    at3 D y x l = at3 D' y x l.

(** The pixel [(x', y')] is one of the 8 neighbours of [(x, y)] and lies on
    the outer border of an image of size [H] x [W]. *)
Definition border_neighbour (H W x y x' y' : nat) : Prop :=
  (x' = x - 1 \/ x' = x \/ x' = x + 1) /\
  (y' = y - 1 \/ y' = y \/ y' = y + 1) /\
  (x', y') <> (x, y) /\
  x' < W /\ y' < H /\
  (x' = 0 \/ x' = W - 1 \/ y' = 0 \/ y' = H - 1).

(** A 3x3 image of constant intensity. *)
Definition gray3 : image :=
  Gray (of_rows [[1 # 2; 1 # 2; 1 # 2];
                 [1 # 2; 1 # 2; 1 # 2];
                 [1 # 2; 1 # 2; 1 # 2]]%Q).

(** ** The image that is blurred *)

(** The lines 20-21 of [createGaussianPyramid]: an image whose maximum
    exceeds 10 is converted to floats and divided by 255. *)
Definition rescale (im : array2 Q) : result (array2 Q) :=
  m <- np_amax "createGaussianPyramid" im ;;
  Ok (if negb (Qle_bool m 10) then float32_div255 im else im).

(** The gray image that [createGaussianPyramid] works on. *)
Definition gray_of (cvtColor : array3 Q -> option (nat -> nat -> Q))
    (im : image) : result (array2 Q) :=
  match im with
  | Color c => cv2_cvtColor cvtColor "createGaussianPyramid" c
  | Gray g => Ok g
  end.

(** ** displayPyramid *)

(** The calls of the window functions of OpenCV, in the order of the
    calls. *)
Inductive gui_event : Type :=
| Imshow (title : string) (img : array2 Q)
| WaitKey (delay : Z)
| DestroyAllWindows.

(** [np.split(a, a.shape[2], axis=2)]: one array of one level per level;
    the number of sections must not be zero. *)
Definition np_split_levels (fn : string) (a : array3 Q)
  : result (list (array3 Q)) :=
  if nlev a =? 0
  then Raise (Exc "ZeroDivisionError" fn)
  else Ok (map (fun l => Array3 (dtype3 a) (imH a) (imW a) 1
                                (fun y x l' => at3 a y x (l + l')))
               (seq 0 (nlev a))).

(** The entry [(y, x, l)] of the arrays [parts] put side by side. *)
Fixpoint columns_at (parts : list (array3 Q)) (y x l : nat) : Q :=
  match parts with
  | [] => 0%Q
  | p :: ps =>
      if x <? imW p then at3 p y x l else columns_at ps y (x - imW p) l
  end.

(** [np.concatenate(parts, axis=1)]: the list must not be empty and its
    arrays must agree on the other two axes. *)
Definition np_concatenate_axis1 (fn : string) (parts : list (array3 Q))
  : result (array3 Q) :=
  match parts with
  | [] => Raise (Exc "ValueError" fn)
  | p :: ps =>
      if forallb (fun q => (imH q =? imH p) && (nlev q =? nlev p)) ps
      then Ok (Array3 (fold_left promote (map (@dtype3 Q) ps) (dtype3 p))
                      (imH p) (list_sum (map (@imW Q) parts)) (nlev p)
                      (columns_at parts))
      else Raise (Exc "ValueError" fn)
  end.

(** The lines 34-35 of [displayPyramid]: the levels side by side. *)
Definition mosaic (im_pyramid : array3 Q) : result (array3 Q) :=
  parts <- np_split_levels "displayPyramid" im_pyramid ;;
  np_concatenate_axis1 "displayPyramid" parts.

Section Display.

(** [cv2.normalize(src, None, alpha=0, beta=1, norm_type=cv2.NORM_MINMAX,
    dtype=cv2.CV_32F)]; [None] stands for [cv2.error]. *)
Variable normalize : array3 Q -> option (array2 Q).

Definition displayPyramid (im_pyramid : array3 Q) : result (list gui_event) :=
  im_pyramid <- mosaic im_pyramid ;;
  im_pyramid <- cv2_call "displayPyramid" (normalize im_pyramid) ;;
  Ok [Imshow "Pyramid of image" im_pyramid; WaitKey 0; DestroyAllWindows].

End Display.

(** ** Vocabulary of the further statements *)

(** [a] and [b] differ by at most one. *)
Definition near (a b : nat) : Prop := a <= b + 1 /\ b <= a + 1.

(** The pixel [(x', y')] of the level [l'] lies in the region searched by
    [getLocalExtrema] (the image without its border of one pixel) and is at
    most one step away from [(x, y, l)] along each axis. *)
Definition neighbour3 (D : array3 Q) (x y l x' y' l' : nat) : Prop :=
  1 <= x' /\ x' + 1 < imW D /\ 1 <= y' /\ y' + 1 < imH D /\
  near x x' /\ near y y' /\ near l l'.

(** An image of 2x2 pixels with the values of an 8-bit image, a dark one,
    and a normalisation that keeps the first channel. *)
Definition bytes2 : array2 Q := of_rows [[0; 51]; [102; 255]]%Q.
Definition dark2 : array2 Q := of_rows [[0; 1]; [2; 10]]%Q.

Definition first_channel (a : array3 Q) : option (array2 Q) :=
  Some (Array2 (dtype3 a) (imH a) (imW a) (fun y x => at3 a y x 0)).

(** The height and width of the image given to the pipeline. *)
Definition image_shape (im : image) : nat * nat :=
  match im with
  | Gray g => (rows g, cols g)
  | Color c => (imH c, imW c)
  end.

(** The order of the rows of the result: by level, then by row, then by
    column. *)
Definition index_before (a b : nat * nat) : Prop :=
  fst a < fst b \/ (fst a = fst b /\ snd a < snd b).

Definition kp_before (a b : keypoint) : Prop :=
  snd a < snd b \/
  (snd a = snd b /\
   index_before (snd (fst a), fst (fst a)) (snd (fst b), fst (fst b))).

(** ** 8-bit images

    An 8-bit image whose maximum is at most 10 is not converted to floats
    by [createGaussianPyramid], and the stages that follow work on arrays
    of [uint8]. *)

(** A black 8-bit image of 3x3 pixels, and a Gaussian pyramid of two levels
    of one pixel that gets darker. *)
Definition black3 : image :=
  Gray (astype2 uint8 (of_rows [[0; 0; 0]; [0; 0; 0]; [0; 0; 0]]%Q)).

Definition fading_pyramid : array3 Q :=
  astype3 uint8 (of_levels [[[1]]; [[0]]]%Q).

(** A black DoG pyramid of one level of 3x3 pixels, of 8 bits, and a DoG
    pyramid of floats without pixels. *)
Definition black_DoG : array3 Q :=
  astype3 uint8 (of_levels [[[0; 0; 0]; [0; 0; 0]; [0; 0; 0]]]%Q).

Definition empty_DoG : array3 Q := Array3 float_ 0 0 1 (fun _ _ _ => 0%Q).

(** ** Vocabulary of the statements on the curvature *)

(** The image [cv2.Sobel(src, -1, dx, dy)] for an image that OpenCV
    accepts. *)
Definition Sobel_image (Sobel : array2 Q -> Z -> Z -> Z -> nat -> nat -> Q)
    (src : array2 Q) (dx dy : Z) : array2 Q :=
  Array2 (dtype2 src) (rows src) (cols src)
         (fun y x => saturate (dtype2 src) (Sobel src (-1)%Z dx dy y x)).

(** The pyramids on which the first call of [cv2.Sobel] fails: they have
    a level, and their levels are masks or have no pixel. *)
Definition Sobel_fails (D : array3 Q) : bool :=
  negb (nlev D =? 0) && cv2_refuses (dtype3 D) (imH D) (imW D).

(** The ratio [(dxx + dyy)**2 / det] of a level that OpenCV accepts. *)
Definition curvature_image (Sobel : array2 Q -> Z -> Z -> Z -> nat -> nat -> Q)
    (img : array2 Q) : array2 fvalue :=
  let dx := Sobel_image Sobel img 1 0 in
  let dy := Sobel_image Sobel img 0 1 in
  let dxx := Sobel_image Sobel dx 1 0 in
  let dxy := Sobel_image Sobel dx 0 1 in
  let dyy := Sobel_image Sobel dy 0 1 in
  let det := fix_zeros (arith2 Qminus (arith2 Qmult dxx dyy) (np_power dxy 2)) in
  np_true_divide (np_power (arith2 Qplus dxx dyy) 2) det.

(** The exception [e] comes from a statement of the function [fn] and is
    not the [InvalidParameter] of the specification. *)
Definition raised_inside (fn : string) (e : exception) : Prop :=
  exc_in e = fn /\ exc_type e <> "InvalidParameter"%string.

(** A DoG pyramid of 258 levels of one value. *)
Definition tall_pyramid : array3 Q := Array3 float_ 3 3 258 (fun _ _ _ => 0%Q).
(** * Properties *)

Unset Implicit Arguments.

(** Closes a goal on an exception that was raised by an explicit
    statement. *)
Ltac raised :=
  repeat match goal with
         | H : Raise _ = Raise _ |- _ => inversion H; subst; clear H
         | H : Ok _ = Raise _ |- _ => discriminate H
         end;
  try (split; [reflexivity | discriminate]).

(** ** Loops and stacks *)

Lemma for_append_total (A B : Type) (body : A -> result B) (f : A -> B)
    (l : list A) :
  (forall a, In a l -> body a = Ok (f a)) ->
  for_append body l = Ok (map f l).
Proof.
  induction l as [|a l IH]; intros Hbody; simpl.
  - reflexivity.
  - rewrite (Hbody a (or_introl eq_refl)); simpl.
    rewrite IH by (intros b Hb; apply Hbody; right; exact Hb).
    reflexivity.
Qed.

Lemma for_append_length (A B : Type) (body : A -> result B) (l : list A)
    (bs : list B) :
  for_append body l = Ok bs -> List.length bs = List.length l.
Proof.
  revert bs; induction l as [|a l IH]; intros bs; simpl.
  - intros H; inversion H; reflexivity.
  - destruct (body a) as [b|e]; simpl; [|discriminate].
    destruct (for_append body l) as [bs'|e]; simpl; [|discriminate].
    intros H; inversion H; subst; simpl.
    rewrite (IH bs' eq_refl); reflexivity.
Qed.

Lemma for_append_raise (A B : Type) (body : A -> result B) (l : list A)
    (e : exception) :
  for_append body l = Raise e -> exists a, In a l /\ body a = Raise e.
Proof.
  induction l as [|a l IH]; simpl.
  - discriminate.
  - destruct (body a) as [b|e'] eqn:Hb; simpl.
    + destruct (for_append body l) as [bs|e'']; simpl; [discriminate|].
      intros H; inversion H; subst.
      destruct (IH eq_refl) as [a' [Hin Ha']].
      exists a'; split; [right; exact Hin | exact Ha'].
    + intros H; inversion H; subst.
      exists a; split; [left; reflexivity | exact Hb].
Qed.

Lemma np_stack_ok (fn : string) (arrs : list (array2 Q)) (a : array3 Q) :
  np_stack fn arrs = Ok a -> nlev a = List.length arrs /\ arrs <> [].
Proof.
  unfold np_stack; destruct arrs as [|h rest]; [discriminate|].
  destruct (forallb (same_shape h) rest); [|discriminate].
  intros H; inversion H; subst; simpl; split; [reflexivity|discriminate].
Qed.

Lemma np_stack_raise (fn : string) (arrs : list (array2 Q)) (e : exception) :
  np_stack fn arrs = Raise e -> e = Exc "ValueError" fn.
Proof.
  unfold np_stack; destruct arrs as [|h rest].
  - intros H; inversion H; reflexivity.
  - destruct (forallb (same_shape h) rest); [discriminate|].
    intros H; inversion H; reflexivity.
Qed.

(** A loop that returns has run every iteration. *)
Lemma for_append_inv (A B : Type) (body : A -> result B) (l : list A)
    (bs : list B) :
  for_append body l = Ok bs ->
  Forall2 (fun a b => body a = Ok b) l bs.
Proof.
  revert bs; induction l as [|a l IH]; intros bs; simpl.
  - intros H; inversion H; constructor.
  - destruct (body a) as [b|e] eqn:Hb; simpl; [|discriminate].
    destruct (for_append body l) as [bs'|e]; simpl; [|discriminate].
    intros H; inversion H; subst.
    constructor; [exact Hb | apply IH; reflexivity].
Qed.

Lemma promote_same (d : dtype) : promote d d = d.
Proof. destruct d; reflexivity. Qed.

Lemma fold_promote_same (d : dtype) (ds : list dtype) :
  (forall d', In d' ds -> d' = d) -> fold_left promote ds d = d.
Proof.
  induction ds as [|d' ds IH]; intros Hall; simpl; [reflexivity|].
  rewrite (Hall d' (or_introl eq_refl)), promote_same.
  apply IH; intros d'' Hd; apply Hall; right; exact Hd.
Qed.

(** The stack of arrays of one dtype and one shape. *)
Lemma np_stack_uniform (fn : string) (arrs : list (array2 Q)) (a : array3 Q)
    (d : dtype) (h w : nat) :
  np_stack fn arrs = Ok a ->
  (forall b, In b arrs -> dtype2 b = d /\ rows b = h /\ cols b = w) ->
  dtype3 a = d /\ imH a = h /\ imW a = w /\ nlev a = List.length arrs /\
  forall y x l b, at3 a y x l = at2 (nth l arrs (nth 0 arrs b)) y x.
Proof.
  unfold np_stack; destruct arrs as [|b0 rest]; [discriminate|].
  destruct (forallb (same_shape b0) rest); [|discriminate].
  intros H Hall; inversion H; subst a; clear H; cbn [dtype3 imH imW nlev at3].
  destruct (Hall b0 (or_introl eq_refl)) as [Hd [Hh Hw]].
  repeat split; try assumption.
  rewrite Hd; apply fold_promote_same.
  intros d' Hd'; apply in_map_iff in Hd'; destruct Hd' as [b [<- Hb]].
  apply (Hall b); right; exact Hb.
Qed.

Lemma DoG_loop_total (gp : array3 Q) (n : nat) :
  dtype3 gp <> bool_ ->
  n + 1 <= nlev gp ->
  for_append
    (fun i =>
       hi <- level "createDoGPyramid" gp (i + 1) ;;
       lo <- level "createDoGPyramid" gp i ;;
       np_subtract "createDoGPyramid" hi lo)
    (seq 0 n)
  = Ok (map (DoG_level gp) (seq 0 n)).
Proof.
  intros Hd Hn; apply for_append_total.
  intros i Hi; apply in_seq in Hi.
  unfold level.
  assert (H1 : (i + 1 <? nlev gp) = true) by (apply Nat.ltb_lt; lia).
  assert (H0 : (i <? nlev gp) = true) by (apply Nat.ltb_lt; lia).
  rewrite H1, H0; unfold bind, np_subtract; cbn [dtype2].
  destruct (dtype3 gp) eqn:Hdt; [congruence | |];
    unfold DoG_level; rewrite Hdt; reflexivity.
Qed.

Lemma DoG_stack_total (gp : array3 Q) (n : nat) :
  1 <= n ->
  np_stack "createDoGPyramid" (map (DoG_level gp) (seq 0 n))
  = Ok (Array3 (dtype3 gp) (imH gp) (imW gp) n
               (fun y x l =>
                  at2 (nth l (map (DoG_level gp) (seq 0 n)) (DoG_level gp 0))
                      y x)).
Proof.
  intros Hn; destruct n as [|n]; [lia|].
  unfold np_stack.
  change (map (DoG_level gp) (seq 0 (S n)))
    with (DoG_level gp 0 :: map (DoG_level gp) (seq 1 n)).
  assert (Hall : forallb (same_shape (DoG_level gp 0))
                         (map (DoG_level gp) (seq 1 n)) = true).
  { apply forallb_forall; intros a Ha.
    apply in_map_iff in Ha; destruct Ha as [i [<- _]].
    unfold same_shape; simpl; rewrite !Nat.eqb_refl; reflexivity. }
  cbv beta iota; rewrite Hall.
  rewrite fold_promote_same.
  - simpl; rewrite length_map, length_seq; reflexivity.
  - intros d Hd; apply in_map_iff in Hd; destruct Hd as [a [<- Ha]].
    apply in_map_iff in Ha; destruct Ha as [i [<- _]]; reflexivity.
Qed.

Lemma nth_DoG_level (gp : array3 Q) (n j : nat) (d : array2 Q) :
  j < n -> nth j (map (DoG_level gp) (seq 0 n)) d = DoG_level gp j.
Proof.
  intros Hj.
  rewrite (nth_indep _ d (DoG_level gp 0))
    by (rewrite length_map, length_seq; exact Hj).
  rewrite (map_nth (DoG_level gp) (seq 0 n) 0 j), seq_nth by exact Hj.
  reflexivity.
Qed.

Lemma createDoGPyramid_total (gp : array3 Q) (levels : list Z) :
  dtype3 gp <> bool_ ->
  List.length levels = nlev gp ->
  2 <= nlev gp ->
  createDoGPyramid gp levels =
  Ok (Array3 (dtype3 gp) (imH gp) (imW gp) (nlev gp - 1)
             (fun y x l =>
                at2 (nth l (map (DoG_level gp) (seq 0 (nlev gp - 1)))
                         (DoG_level gp 0)) y x),
      map Z.of_nat (seq 0 (nlev gp - 1))).
Proof.
  intros Hd HL H2.
  unfold createDoGPyramid, range, len.
  replace (Z.to_nat (Z.of_nat (List.length levels) - 1)) with (nlev gp - 1)
    by lia.
  rewrite DoG_loop_total by (assumption || lia); simpl bind.
  rewrite DoG_stack_total by lia; reflexivity.
Qed.

Lemma wrap_float (v : Q) : wrap float_ v = v.
Proof. reflexivity. Qed.

(** ** C1 *)

(** C1, as stated, fails at two places.  For a Gaussian pyramid of one
    level (and one entry in [levels]) no pyramid of zero levels is
    returned: the stacking of the empty list raises [ValueError].  And on a
    pyramid of 8-bit levels, as [createGaussianPyramid] builds it from a
    dark 8-bit image, the difference is taken modulo 256: where the level
    1 holds 0 and the level 0 holds 1, the DoG level holds 255 and not
    [0 - 1]. *)
Lemma createDoGPyramid_differences_fail :
  (let gp := of_levels [[[1%Q]]] in
   List.length [0%Z] = nlev gp /\
   createDoGPyramid gp [0%Z] = Raise (Exc "ValueError" "createDoGPyramid")) /\
  (let gp := fading_pyramid in
   List.length [0; 1]%Z = nlev gp /\
   (at3 gp 0 0 0 == 1)%Q /\ (at3 gp 0 0 1 == 0)%Q /\
   exists DoG_pyramid DoG_levels,
     createDoGPyramid gp [0; 1]%Z = Ok (DoG_pyramid, DoG_levels) /\
     (at3 DoG_pyramid 0 0 0 == 255)%Q /\
     ~ (at3 DoG_pyramid 0 0 0 == at3 gp 0 0 1 - at3 gp 0 0 0)%Q).
Proof.
  split; [split; reflexivity|].
  cbv zeta; split; [reflexivity|].
  split; [reflexivity|]; split; [reflexivity|].
  eexists; eexists; split; [vm_compute; reflexivity|].
  split; [reflexivity | discriminate].
Qed.

(** C1 (amended): for every Gaussian pyramid of floats with
    [L = len(levels) >= 2] levels, [createDoGPyramid] returns a DoG pyramid
    of floats with exactly [L-1] levels and the height and width of the
    Gaussian pyramid, whose level [j] is [Gaussian[j+1] - Gaussian[j]] at
    every pixel, for [j] in [0..L-2]. *)
Theorem createDoGPyramid_differences (gp : array3 Q) (levels : list Z) :
  dtype3 gp = float_ ->
  List.length levels = nlev gp ->
  2 <= nlev gp ->
  exists DoG_pyramid DoG_levels,
    createDoGPyramid gp levels = Ok (DoG_pyramid, DoG_levels) /\
    dtype3 DoG_pyramid = float_ /\
    nlev DoG_pyramid = nlev gp - 1 /\
    imH DoG_pyramid = imH gp /\
    imW DoG_pyramid = imW gp /\
    forall j y x,
      j < nlev gp - 1 ->
      at3 DoG_pyramid y x j = (at3 gp y x (j + 1) - at3 gp y x j)%Q.
Proof.
  intros Hd HL H2.
  rewrite createDoGPyramid_total by (assumption || congruence).
  eexists; eexists; split; [reflexivity|].
  cbn [dtype3 nlev imH imW at3]; repeat split; try assumption.
  intros j y x Hj.
  rewrite nth_DoG_level by exact Hj.
  unfold DoG_level; cbn [at2]; rewrite Hd; reflexivity.
Qed.

Lemma createDoGPyramid_differences_witness :
  let gp := of_levels [[[1; 2]]; [[4; 8]]; [[16; 32]]]%Q in
  exists DoG_pyramid DoG_levels,
    createDoGPyramid gp [0; 1; 2]%Z = Ok (DoG_pyramid, DoG_levels) /\
    dtype3 DoG_pyramid = float_ /\
    nlev DoG_pyramid = 2 /\
    imH DoG_pyramid = 1 /\
    imW DoG_pyramid = 2 /\
    forall j y x,
      j < 2 ->
      at3 DoG_pyramid y x j = (at3 gp y x (j + 1) - at3 gp y x j)%Q.
Proof.
  apply (createDoGPyramid_differences
           (of_levels [[[1; 2]]; [[4; 8]]; [[16; 32]]]%Q) [0; 1; 2]%Z);
    simpl; (reflexivity || lia).
Defined.

(** ** C7 *)

Lemma createDoGPyramid_levels (gp D : array3 Q) (levels DoG_levels : list Z) :
  createDoGPyramid gp levels = Ok (D, DoG_levels) ->
  DoG_levels = map Z.of_nat (seq 0 (List.length levels - 1)).
Proof.
  unfold createDoGPyramid.
  destruct (for_append _ _) as [arrs|e]; simpl; [|discriminate].
  destruct (np_stack _ arrs) as [a|e]; simpl; [|discriminate].
  intros H; inversion H; subst.
  unfold range, len; f_equal; f_equal; lia.
Qed.

(** C7: on [levels = [0, 1, 2, 3]] the second output is [range(3)], that is
    [[0, 1, 2]], and not [levels[1:]], which is [[1, 2, 3]]. *)
Theorem createDoGPyramid_levels_not_tail :
  match createDoGPyramid flat_pyramid [0; 1; 2; 3]%Z with
  | Ok (_, DoG_levels) =>
      DoG_levels = [0; 1; 2]%Z /\
      DoG_levels <> drop_first [0; 1; 2; 3]%Z
  | Raise _ => False
  end.
Proof. vm_compute; split; [reflexivity | discriminate]. Qed.

(** On the default [levels] the two lists coincide. *)
Lemma createDoGPyramid_levels_default (gp D : array3 Q) (DoG_levels : list Z) :
  createDoGPyramid gp default_levels = Ok (D, DoG_levels) ->
  DoG_levels = drop_first default_levels.
Proof. intros H; rewrite (createDoGPyramid_levels _ _ _ _ H); reflexivity. Qed.

(** ** The keypoints of one level *)

Lemma np_concatenate_ok (A : Type) (fn : string) (res : list (list A))
    (out : list A) :
  np_concatenate fn res = Ok out -> out = List.concat res /\ res <> [].
Proof.
  destruct res as [|r res]; simpl; [discriminate|].
  intros H; inversion H; split; [reflexivity | discriminate].
Qed.

Lemma np_where_In (mask : array2 bool) (i j : nat) :
  In (i, j) (np_where mask) <->
  i < rows mask /\ j < cols mask /\ at2 mask i j = true.
Proof.
  unfold np_where; rewrite filter_In, in_prod_iff, !in_seq; simpl.
  split; [intros [[Hi Hj] Hm] | intros [Hi [Hj Hm]]]; repeat split;
    try lia; exact Hm.
Qed.

Lemma is_extrema_shape (D : array3 Q) (th : Q) (l : nat) :
  rows (is_extrema D th l) = imH D - 2 /\
  cols (is_extrema D th l) = imW D - 2.
Proof. split; reflexivity. Qed.

Lemma level_rows_In (D : array3 Q) (th : Q) (l x y l' : nat) :
  In (x, y, l') (level_rows D th l) <->
  l' = l /\ 1 <= x /\ 1 <= y /\ x + 1 < imW D /\ y + 1 < imH D /\
  at2 (is_extrema D th l) (y - 1) (x - 1) = true.
Proof.
  unfold level_rows; rewrite in_map_iff; split.
  - intros [[i j] [Heq Hin]]; cbn [fst snd] in Heq.
    inversion Heq; subst x y l'; clear Heq.
    apply np_where_In in Hin.
    destruct (is_extrema_shape D th l) as [Hr Hc].
    rewrite Hr, Hc in Hin; cbn [fst snd] in Hin.
    destruct Hin as [Hi [Hj Hm]].
    replace (i + 1 - 1) with i by lia; replace (j + 1 - 1) with j by lia.
    repeat split; try lia; exact Hm.
  - intros [Hl [Hx [Hy [Hw [Hh Hm]]]]]; subst l'.
    exists (y - 1, x - 1); simpl; split.
    + repeat f_equal; lia.
    + apply np_where_In.
      destruct (is_extrema_shape D th l) as [Hr Hc].
      rewrite Hr, Hc; cbn [fst snd]; repeat split; try lia; exact Hm.
Qed.

(** The loop over the levels: it fails at the first level above 255. *)
Lemma level_loop (D : array3 Q) (th : Q) (ls : list nat) :
  for_append (level_keypoints D th) ls =
  if forallb (fun l => l <=? 255) ls
  then Ok (map (level_rows D th) ls)
  else Raise (Exc "OverflowError" "getLocalExtrema").
Proof.
  induction ls as [|l ls IH]; [reflexivity|].
  cbn [for_append forallb map]; unfold level_keypoints at 1.
  destruct (Nat.ltb_spec 255 l) as [Hl|Hl].
  - replace (l <=? 255) with false by (symmetry; apply Nat.leb_gt; exact Hl).
    reflexivity.
  - replace (l <=? 255) with true by (symmetry; apply Nat.leb_le; exact Hl).
    rewrite IH; cbn [bind andb].
    destruct (forallb (fun l0 => l0 <=? 255) ls); reflexivity.
Qed.

Lemma getLocalExtrema_unfold (A : Type) (D : array3 Q) (DoG_levels : list Z)
    (pc : array3 A) (th th_r : Q) :
  getLocalExtrema D DoG_levels pc th th_r =
  if forallb (fun l => l <=? 255) (seq 1 (nlev D - 2))
  then np_concatenate "getLocalExtrema"
         (map (level_rows D th) (seq 1 (nlev D - 2)))
  else Raise (Exc "OverflowError" "getLocalExtrema").
Proof.
  unfold getLocalExtrema, range2.
  replace (Z.to_nat (Z.of_nat (nlev D) - 1 - 1)) with (nlev D - 2) by lia.
  change (Z.to_nat 1) with 1.
  rewrite level_loop.
  destruct (forallb (fun l => l <=? 255) (seq 1 (nlev D - 2))); reflexivity.
Qed.

(** A run that returns has concatenated the rows of the levels
    [1 .. levels-2], of which there is at least one. *)
Lemma getLocalExtrema_ok_inv (A : Type) (D : array3 Q) (DoG_levels : list Z)
    (pc : array3 A) (th th_r : Q) (kps : list keypoint) :
  getLocalExtrema D DoG_levels pc th th_r = Ok kps ->
  3 <= nlev D /\
  kps = List.concat (map (level_rows D th) (seq 1 (nlev D - 2))).
Proof.
  rewrite getLocalExtrema_unfold.
  destruct (forallb (fun l => l <=? 255) (seq 1 (nlev D - 2)));
    [|discriminate].
  intros H; apply np_concatenate_ok in H; destruct H as [-> Hne].
  split; [|reflexivity].
  destruct (nlev D - 2) eqn:Hn; [exfalso; apply Hne; reflexivity | lia].
Qed.

Lemma getLocalExtrema_In (A : Type) (D : array3 Q) (DoG_levels : list Z)
    (pc : array3 A) (th th_r : Q) (kps : list keypoint) (k : keypoint) :
  getLocalExtrema D DoG_levels pc th th_r = Ok kps ->
  (In k kps <->
   exists l, 1 <= l /\ l + 1 < nlev D /\ In k (level_rows D th l)).
Proof.
  intros H; apply getLocalExtrema_ok_inv in H; destruct H as [_ ->].
  rewrite in_concat; split.
  - intros [ks [Hks Hk]].
    apply in_map_iff in Hks; destruct Hks as [l [<- Hl]].
    apply in_seq in Hl; exists l; repeat split; [lia | lia | exact Hk].
  - intros [l [H1 [H2 Hk]]].
    exists (level_rows D th l); split; [|exact Hk].
    apply in_map; apply in_seq; lia.
Qed.

Lemma is_extrema_at (D : array3 Q) (th : Q) (l i j : nat) :
  at2 (is_extrema D th l) i j =
  at2 (local_extrema D l) i j && qge (Qabs (at3 D (i + 1) (j + 1) l)) th.
Proof.
  unfold is_extrema.
  generalize (local_extrema D l) as m; intros m.
  reflexivity.
Qed.

Lemma qge_true (a b : Q) : qge a b = true <-> (b <= a)%Q.
Proof. unfold qge; apply Qle_bool_iff. Qed.

Lemma is_extrema_contrast (D : array3 Q) (th : Q) (l i j : nat) :
  at2 (is_extrema D th l) i j = true ->
  (th <= Qabs (at3 D (i + 1) (j + 1) l))%Q.
Proof.
  intros H; rewrite is_extrema_at in H.
  apply andb_true_iff in H; destruct H as [_ H].
  apply qge_true; exact H.
Qed.

(** ** C2 *)

(** C2: every keypoint [(x, y, level)] returned by [getLocalExtrema] on a DoG
    pyramid of height [H], width [W] and [L-1] levels satisfies
    [1 <= x <= W-2], [1 <= y <= H-2], [|DoG[level][y][x]| >= th_contrast]
    and [1 <= level <= L-3]. *)
Theorem getLocalExtrema_keypoints_interior (D : array3 Q) (DoG_levels : list Z)
    (pc : array3 Q) (th_contrast th_r : Q) (H W L : Z)
    (kps : list keypoint) (x y lv : nat) :
  H = Z.of_nat (imH D) ->
  W = Z.of_nat (imW D) ->
  (L - 1)%Z = Z.of_nat (nlev D) ->
  getLocalExtrema D DoG_levels pc th_contrast th_r = Ok kps ->
  In (x, y, lv) kps ->
  (1 <= Z.of_nat x <= W - 2)%Z /\
  (1 <= Z.of_nat y <= H - 2)%Z /\
  (th_contrast <= Qabs (at3 D y x lv))%Q /\
  (1 <= Z.of_nat lv <= L - 3)%Z.
Proof.
  intros HH HW HL Hrun Hin.
  apply (getLocalExtrema_In _ _ _ _ _ _ _ (x, y, lv) Hrun) in Hin.
  destruct Hin as [l [H1 [H2 Hk]]].
  apply level_rows_In in Hk.
  destruct Hk as [Hl [Hx [Hy [Hw [Hh Hm]]]]]; subst lv.
  apply is_extrema_contrast in Hm.
  replace (y - 1 + 1) with y in Hm by lia.
  replace (x - 1 + 1) with x in Hm by lia.
  repeat split; try lia; exact Hm.
Qed.

Lemma getLocalExtrema_keypoints_interior_witness :
  getLocalExtrema peak_pyramid [0; 1; 2]%Z peak_pyramid
                  default_th_contrast default_th_r = Ok [(1, 1, 1)] /\
  (1 <= Z.of_nat 1 <= 4 - 2)%Z /\
  (1 <= Z.of_nat 1 <= 4 - 2)%Z /\
  (default_th_contrast <= Qabs (at3 peak_pyramid 1 1 1))%Q /\
  (1 <= Z.of_nat 1 <= 4 - 3)%Z.
Proof.
  split; [vm_compute; reflexivity|].
  apply (getLocalExtrema_keypoints_interior
           peak_pyramid [0; 1; 2]%Z peak_pyramid
           default_th_contrast default_th_r 4 4 4 [(1, 1, 1)] 1 1 1);
    try (vm_compute; reflexivity).
  left; reflexivity.
Defined.

(** ** Maxima and minima of lists of pixels *)

Lemma Qle_bool_false (a b : Q) : Qle_bool a b = false -> (b <= a)%Q.
Proof.
  intros H; apply Qlt_le_weak, Qnot_le_lt.
  intros Hle; apply Qle_bool_iff in Hle; congruence.
Qed.

Lemma qmax_ge_l (a b : Q) : (a <= qmax a b)%Q.
Proof.
  unfold qmax; destruct (Qle_bool a b) eqn:H.
  - apply Qle_bool_iff; exact H.
  - apply Qle_refl.
Qed.

Lemma qmax_ge_r (a b : Q) : (b <= qmax a b)%Q.
Proof.
  unfold qmax; destruct (Qle_bool a b) eqn:H.
  - apply Qle_refl.
  - apply Qle_bool_false; exact H.
Qed.

Lemma qmin_le_l (a b : Q) : (qmin a b <= a)%Q.
Proof.
  unfold qmin; destruct (Qle_bool a b) eqn:H.
  - apply Qle_refl.
  - apply Qle_bool_false; exact H.
Qed.

Lemma qmin_le_r (a b : Q) : (qmin a b <= b)%Q.
Proof.
  unfold qmin; destruct (Qle_bool a b) eqn:H.
  - apply Qle_bool_iff; exact H.
  - apply Qle_refl.
Qed.

Lemma qmax_cases (a b : Q) : qmax a b = a \/ qmax a b = b.
Proof. unfold qmax; destruct (Qle_bool a b); auto. Qed.

Lemma qmin_cases (a b : Q) : qmin a b = a \/ qmin a b = b.
Proof. unfold qmin; destruct (Qle_bool a b); auto. Qed.

Lemma fold_qmax_ge (l : list Q) (init : Q) :
  (init <= fold_left qmax l init)%Q /\
  forall v, In v l -> (v <= fold_left qmax l init)%Q.
Proof.
  revert init; induction l as [|a l IH]; intros init; simpl.
  - split; [apply Qle_refl | intros v []].
  - destruct (IH (qmax init a)) as [H0 Hl]; split.
    + apply Qle_trans with (qmax init a); [apply qmax_ge_l | exact H0].
    + intros v [<-|Hv]; [|apply Hl; exact Hv].
      apply Qle_trans with (qmax init a); [apply qmax_ge_r | exact H0].
Qed.

Lemma fold_qmin_le (l : list Q) (init : Q) :
  (fold_left qmin l init <= init)%Q /\
  forall v, In v l -> (fold_left qmin l init <= v)%Q.
Proof.
  revert init; induction l as [|a l IH]; intros init; simpl.
  - split; [apply Qle_refl | intros v []].
  - destruct (IH (qmin init a)) as [H0 Hl]; split.
    + apply Qle_trans with (qmin init a); [exact H0 | apply qmin_le_l].
    + intros v [<-|Hv]; [|apply Hl; exact Hv].
      apply Qle_trans with (qmin init a); [exact H0 | apply qmin_le_r].
Qed.

Lemma fold_qmax_attained (l : list Q) (init : Q) :
  fold_left qmax l init = init \/ In (fold_left qmax l init) l.
Proof.
  revert init; induction l as [|a l IH]; intros init; simpl; [auto|].
  destruct (IH (qmax init a)) as [H|H]; [|auto].
  rewrite H; destruct (qmax_cases init a) as [E|E]; rewrite E; auto.
Qed.

Lemma fold_qmin_attained (l : list Q) (init : Q) :
  fold_left qmin l init = init \/ In (fold_left qmin l init) l.
Proof.
  revert init; induction l as [|a l IH]; intros init; simpl; [auto|].
  destruct (IH (qmin init a)) as [H|H]; [|auto].
  rewrite H; destruct (qmin_cases init a) as [E|E]; rewrite E; auto.
Qed.

Lemma fold_qmax_lub (l : list Q) (init c : Q) :
  (init <= c)%Q -> (forall v, In v l -> (v <= c)%Q) ->
  (fold_left qmax l init <= c)%Q.
Proof.
  intros H0 Hl; destruct (fold_qmax_attained l init) as [E|E].
  - rewrite E; exact H0.
  - apply Hl; exact E.
Qed.

Lemma fold_qmin_glb (l : list Q) (init c : Q) :
  (c <= init)%Q -> (forall v, In v l -> (c <= v)%Q) ->
  (c <= fold_left qmin l init)%Q.
Proof.
  intros H0 Hl; destruct (fold_qmin_attained l init) as [E|E].
  - rewrite E; exact H0.
  - apply Hl; exact E.
Qed.

(** ** The image that createGaussianPyramid blurs *)

Lemma entries_In (A : Type) (a : array2 A) (v : A) :
  In v (entries a) <->
  exists y x, y < rows a /\ x < cols a /\ v = at2 a y x.
Proof.
  unfold entries; rewrite in_map_iff; split.
  - intros [[y x] [Hv Hin]]; cbn [fst snd] in Hv.
    apply in_prod_iff in Hin; destruct Hin as [Hy Hx].
    apply in_seq in Hy; apply in_seq in Hx.
    exists y, x; repeat split; try lia; symmetry; exact Hv.
  - intros [y [x [Hy [Hx Hv]]]]; exists (y, x); split.
    + symmetry; exact Hv.
    + apply in_prod_iff; split; apply in_seq; lia.
Qed.

Lemma np_amax_spec (fn : string) (a : array2 Q) (m : Q) :
  np_amax fn a = Ok m ->
  (forall y x, y < rows a -> x < cols a -> (at2 a y x <= m)%Q) /\
  exists y x, y < rows a /\ x < cols a /\ m = at2 a y x.
Proof.
  unfold np_amax; destruct (entries a) as [|v vs] eqn:He; [discriminate|].
  intros H; inversion H; subst m; clear H.
  assert (Hin : forall w, In w (v :: vs) <->
                          exists y x, y < rows a /\ x < cols a /\ w = at2 a y x)
    by (intros w; rewrite <- He; apply entries_In).
  split.
  - intros y x Hy Hx.
    assert (Hw : In (at2 a y x) (v :: vs))
      by (apply Hin; exists y, x; auto).
    destruct Hw as [<-|Hw]; [apply (proj1 (fold_qmax_ge vs v))|].
    apply (proj2 (fold_qmax_ge vs v)); exact Hw.
  - apply Hin; destruct (fold_qmax_attained vs v) as [E|E].
    + rewrite E; left; reflexivity.
    + right; exact E.
Qed.

Lemma np_amax_empty (fn : string) (a : array2 Q) :
  rows a = 0 \/ cols a = 0 -> np_amax fn a = Raise (Exc "ValueError" fn).
Proof.
  intros H; unfold np_amax.
  destruct (entries a) as [|v vs] eqn:He; [reflexivity|].
  assert (Hv : In v (entries a)) by (rewrite He; left; reflexivity).
  apply entries_In in Hv; destruct Hv as [y [x [Hy [Hx _]]]]; lia.
Qed.

Lemma np_amax_total (fn : string) (a : array2 Q) :
  0 < rows a -> 0 < cols a -> exists m, np_amax fn a = Ok m.
Proof.
  intros Hr Hc; unfold np_amax.
  destruct (entries a) as [|v vs] eqn:He; [|eexists; reflexivity].
  assert (Hv : In (at2 a 0 0) (entries a))
    by (apply entries_In; exists 0, 0; auto).
  rewrite He in Hv; destruct Hv.
Qed.

Lemma np_amax_nonempty (fn : string) (a : array2 Q) (m : Q) :
  np_amax fn a = Ok m -> 0 < rows a /\ 0 < cols a.
Proof.
  intros H.
  destruct (Nat.eq_dec (rows a) 0) as [Hr|Hr];
    [rewrite np_amax_empty in H by auto; discriminate|].
  destruct (Nat.eq_dec (cols a) 0) as [Hc|Hc];
    [rewrite np_amax_empty in H by auto; discriminate|].
  lia.
Qed.

(** ** The outcome of computePrincipalCurvature *)

Lemma for_update_total (A S : Type) (body : S -> A -> result S)
    (f : S -> A -> S) (l : list A) (s : S) :
  (forall s' a, In a l -> body s' a = Ok (f s' a)) ->
  for_update body l s = Ok (fold_left f l s).
Proof.
  revert s; induction l as [|a l IH]; intros s Hbody; simpl.
  - reflexivity.
  - rewrite (Hbody s a (or_introl eq_refl)); simpl.
    apply IH; intros s' b Hb; apply Hbody; right; exact Hb.
Qed.

Lemma cv2_Sobel_accepts sobel (fn : string) (src : array2 Q) (dx dy : Z) :
  cv2_refuses (dtype2 src) (rows src) (cols src) = false ->
  cv2_Sobel sobel fn src (-1) dx dy = Ok (Sobel_image sobel src dx dy).
Proof. intros H; unfold cv2_Sobel; rewrite H; reflexivity. Qed.

Lemma cv2_Sobel_refuses sobel (fn : string) (src : array2 Q) (dx dy : Z) :
  cv2_refuses (dtype2 src) (rows src) (cols src) = true ->
  cv2_Sobel sobel fn src (-1) dx dy = Raise (Exc "cv2.error" fn).
Proof. intros H; unfold cv2_Sobel; rewrite H; reflexivity. Qed.

Lemma hessian_accepts sobel (img : array2 Q) :
  cv2_refuses (dtype2 img) (rows img) (cols img) = false ->
  hessian sobel img =
  Ok (Sobel_image sobel (Sobel_image sobel img 1 0) 1 0,
      Sobel_image sobel (Sobel_image sobel img 1 0) 0 1,
      Sobel_image sobel (Sobel_image sobel img 0 1) 0 1).
Proof.
  intros H; unfold hessian.
  rewrite !(cv2_Sobel_accepts sobel _ img) by exact H; cbn [bind].
  rewrite !cv2_Sobel_accepts by exact H; reflexivity.
Qed.

Lemma hessian_refuses sobel (img : array2 Q) :
  cv2_refuses (dtype2 img) (rows img) (cols img) = true ->
  hessian sobel img = Raise (Exc "cv2.error" "computePrincipalCurvature").
Proof.
  intros H; unfold hessian; rewrite cv2_Sobel_refuses by exact H; reflexivity.
Qed.

Lemma fold_set_level_shape (A : Type) (f : nat -> array2 A) (ls : list nat)
    (pc : array3 A) :
  shape3 (fold_left (fun pc l => set_level pc l (f l)) ls pc) = shape3 pc /\
  dtype3 (fold_left (fun pc l => set_level pc l (f l)) ls pc) = dtype3 pc.
Proof.
  revert pc; induction ls as [|a ls IH]; intros pc; simpl.
  - split; reflexivity.
  - destruct (IH (set_level pc a (f a))) as [H1 H2]; rewrite H1, H2.
    split; reflexivity.
Qed.

Lemma fold_set_level_at (A : Type) (f : nat -> array2 A) (ls : list nat)
    (pc : array3 A) (y x l : nat) :
  at3 (fold_left (fun pc l => set_level pc l (f l)) ls pc) y x l =
  if existsb (Nat.eqb l) ls then at2 (f l) y x else at3 pc y x l.
Proof.
  revert pc; induction ls as [|a ls IH]; intros pc; simpl.
  - reflexivity.
  - rewrite IH; simpl.
    destruct (existsb (Nat.eqb l) ls); [rewrite orb_true_r; reflexivity|].
    rewrite orb_false_r.
    destruct (l =? a) eqn:Hla; [|reflexivity].
    apply Nat.eqb_eq in Hla; subst a; reflexivity.
Qed.

Lemma range_existsb (n l : nat) :
  l < n -> existsb (Nat.eqb l) (range (Z.of_nat n)) = true.
Proof.
  intros Hl; apply existsb_exists; exists l; split.
  - unfold range; apply in_seq; lia.
  - apply Nat.eqb_refl.
Qed.

(** The ratio of one level of a pyramid that OpenCV accepts. *)
Lemma curvature_of_level_accepts sobel (D : array3 Q) (l : nat) :
  cv2_refuses (dtype3 D) (imH D) (imW D) = false ->
  curvature_of_level sobel (level_image D l) =
  Ok (curvature_image sobel (level_image D l)).
Proof.
  intros H; unfold curvature_of_level.
  rewrite hessian_accepts by exact H; reflexivity.
Qed.

(** The function fails in the first iteration or in none. *)
Lemma computePrincipalCurvature_unfold sobel (D : array3 Q) :
  computePrincipalCurvature sobel D =
  if Sobel_fails D
  then Raise (Exc "cv2.error" "computePrincipalCurvature")
  else Ok (fold_left
             (fun pc l =>
                set_level pc l (curvature_image sobel (level_image D l)))
             (range (Z.of_nat (nlev D)))
             (np_zeros (shape3 D))).
Proof.
  unfold computePrincipalCurvature, Sobel_fails.
  destruct (cv2_refuses (dtype3 D) (imH D) (imW D)) eqn:Href.
  - unfold range; rewrite Nat2Z.id.
    destruct (nlev D) as [|n]; [reflexivity|].
    cbn [seq for_update negb Nat.eqb andb].
    unfold curvature_of_level.
    rewrite hessian_refuses by exact Href; reflexivity.
  - rewrite andb_false_r.
    apply for_update_total; intros pc l _.
    rewrite curvature_of_level_accepts by exact Href; reflexivity.
Qed.

(** ** The steps of createGaussianPyramid *)

Lemma cv2_call_raise (A : Type) (fn : string) (r : option A) (e : exception) :
  cv2_call fn r = Raise e -> e = Exc "cv2.error" fn.
Proof. destruct r; simpl; intros H; inversion H; reflexivity. Qed.

Lemma cv2_call_inv (A : Type) (fn : string) (r : option A) (a : A) :
  cv2_call fn r = Ok a -> r = Some a.
Proof. destruct r; simpl; intros H; inversion H; reflexivity. Qed.

Lemma createGaussianPyramid_unfold pow cvt blur (im : image)
    (sigma0 k : number) (levels : list Z) :
  createGaussianPyramid pow cvt blur im sigma0 k levels =
  (g <- gray_of cvt im ;;
   im' <- rescale g ;;
   im_pyramid <-
     for_append
       (fun i =>
          a <- blur_args pow sigma0 k i ;;
          cv2_GaussianBlur blur "createGaussianPyramid" im' (fst a) (snd a))
       levels ;;
   np_stack "createGaussianPyramid" im_pyramid).
Proof.
  unfold createGaussianPyramid, gray_of, rescale.
  destruct im as [g|c]; cbn [bind].
  - destruct (np_amax "createGaussianPyramid" g); reflexivity.
  - destruct (cv2_cvtColor cvt "createGaussianPyramid" c) as [g|];
      cbn [bind]; [|reflexivity].
    destruct (np_amax "createGaussianPyramid" g); reflexivity.
Qed.

Lemma for_append_nth (A B : Type) (body : A -> result B) (l : list A)
    (bs : list B) (d : A) (d' : B) (n : nat) :
  for_append body l = Ok bs ->
  n < List.length l ->
  body (nth n l d) = Ok (nth n bs d').
Proof.
  revert bs n; induction l as [|a l IH]; intros bs n; simpl.
  - intros _ Hn; lia.
  - destruct (body a) as [b|e] eqn:Hb; simpl; [|discriminate].
    destruct (for_append body l) as [bs'|e]; simpl; [|discriminate].
    intros H Hn; inversion H; subst bs; clear H.
    destruct n as [|n]; simpl; [exact Hb|].
    apply IH; [reflexivity | lia].
Qed.

Lemma for_append_In (A B : Type) (body : A -> result B) (l : list A)
    (bs : list B) (b : B) :
  for_append body l = Ok bs -> In b bs -> exists a, In a l /\ body a = Ok b.
Proof.
  revert bs; induction l as [|a l IH]; intros bs; simpl.
  - intros H; inversion H; intros [].
  - destruct (body a) as [b0|e] eqn:Hb; simpl; [|discriminate].
    destruct (for_append body l) as [bs'|e]; simpl; [|discriminate].
    intros H; inversion H; subst bs; clear H.
    intros [<-|Hin].
    + exists a; split; [left; reflexivity | exact Hb].
    + destruct (IH bs' eq_refl Hin) as [a' [Ha' Hb']].
      exists a'; split; [right; exact Ha' | exact Hb'].
Qed.

Lemma np_stack_inv (fn : string) (arrs : list (array2 Q)) (a : array3 Q) :
  np_stack fn arrs = Ok a ->
  nlev a = List.length arrs /\
  (forall b, In b arrs -> shape2 b = (imH a, imW a)) /\
  forall d y x l, l < List.length arrs -> at3 a y x l = at2 (nth l arrs d) y x.
Proof.
  unfold np_stack; destruct arrs as [|h rest]; [discriminate|].
  destruct (forallb (same_shape h) rest) eqn:Hall; [|discriminate].
  intros H; inversion H; subst a; clear H; cbn [nlev imH imW at3].
  split; [reflexivity|]; split.
  - intros b [<-|Hb]; [reflexivity|].
    rewrite forallb_forall in Hall; specialize (Hall b Hb).
    unfold same_shape in Hall; apply andb_true_iff in Hall.
    destruct Hall as [Hr Hc].
    apply Nat.eqb_eq in Hr; apply Nat.eqb_eq in Hc.
    unfold shape2; congruence.
  - intros d y x l Hl.
    change (at2 (nth l (h :: rest) h) y x = at2 (nth l (h :: rest) d) y x).
    rewrite (nth_indep (h :: rest) h d Hl); reflexivity.
Qed.

Lemma rescale_shape (im im' : array2 Q) :
  rescale im = Ok im' -> shape2 im' = shape2 im.
Proof.
  unfold rescale; destruct (np_amax _ im) as [m|e]; simpl; [|discriminate].
  intros H; inversion H; destruct (negb (Qle_bool m 10)); reflexivity.
Qed.

Lemma rescale_nonempty (im im' : array2 Q) :
  rescale im = Ok im' -> 0 < rows im' /\ 0 < cols im'.
Proof.
  intros H; pose proof (rescale_shape _ _ H) as Hs.
  unfold rescale in H.
  destruct (np_amax _ im) as [m|e] eqn:Hm; [|discriminate].
  apply np_amax_nonempty in Hm.
  unfold shape2 in Hs; inversion Hs; lia.
Qed.

Lemma gray_of_shape cvt (im : image) (g : array2 Q) :
  gray_of cvt im = Ok g -> shape2 g = image_shape im.
Proof.
  destruct im as [g0|c]; simpl.
  - intros H; inversion H; reflexivity.
  - unfold cv2_cvtColor.
    destruct (cv2_call _ _) as [px|e]; cbn [bind]; [|discriminate].
    intros H; inversion H; reflexivity.
Qed.

(** A blur that returns gives an image of the dtype and the shape of its
    input, which OpenCV accepts. *)
Lemma cv2_GaussianBlur_inv blur (fn : string) (im : array2 Q) (ksize : Z * Z)
    (sigma : number) (b : array2 Q) :
  cv2_GaussianBlur blur fn im ksize sigma = Ok b ->
  cv2_refuses (dtype2 im) (rows im) (cols im) = false /\
  exists px,
    blur im ksize sigma = Some px /\
    b = Array2 (dtype2 im) (rows im) (cols im)
               (fun y x => saturate (dtype2 im) (px y x)).
Proof.
  unfold cv2_GaussianBlur.
  destruct (cv2_refuses (dtype2 im) (rows im) (cols im)); [discriminate|].
  destruct (blur im ksize sigma) as [px|]; [|discriminate].
  cbn [cv2_call bind]; intros H; inversion H.
  split; [reflexivity|]; exists px; split; reflexivity.
Qed.

Lemma createGaussianPyramid_inv pow cvt blur (im : image) (sigma0 k : number)
    (levels : list Z) (gp : array3 Q) :
  createGaussianPyramid pow cvt blur im sigma0 k levels = Ok gp ->
  exists g im',
    gray_of cvt im = Ok g /\
    rescale g = Ok im' /\
    levels <> [] /\
    cv2_refuses (dtype2 im') (rows im') (cols im') = false /\
    dtype3 gp = dtype2 im' /\
    shape3 gp = (rows im', cols im', List.length levels) /\
    forall l,
      l < List.length levels ->
      exists size sigma_ px,
        blur_args pow sigma0 k (nth l levels 0%Z) = Ok (size, size, sigma_) /\
        blur im' (size, size) sigma_ = Some px /\
        forall y x, at3 gp y x l = saturate (dtype2 im') (px y x).
Proof.
  rewrite createGaussianPyramid_unfold.
  destruct (gray_of cvt im) as [g|e] eqn:Hg; simpl; [|discriminate].
  destruct (rescale g) as [im'|e] eqn:Hr; simpl; [|discriminate].
  match goal with
  | |- bind (for_append ?body levels) _ = _ -> _ =>
      set (loop := body);
      destruct (for_append loop levels) as [arrs|e] eqn:Hloop
  end; simpl; [|discriminate].
  intros Hs.
  pose proof (for_append_length _ _ _ _ _ Hloop) as Hlen.
  assert (Hne : levels <> []).
  { intros ->; simpl in Hloop; inversion Hloop; subst arrs.
    discriminate Hs. }
  assert (Hbody : forall b, In b arrs ->
            cv2_refuses (dtype2 im') (rows im') (cols im') = false /\
            dtype2 b = dtype2 im' /\ rows b = rows im' /\ cols b = cols im').
  { intros b Hb.
    destruct (for_append_In _ _ _ _ _ _ Hloop Hb) as [i [_ Hi]].
    unfold loop in Hi.
    destruct (blur_args pow sigma0 k i) as [a|e]; simpl in Hi; [|discriminate].
    apply cv2_GaussianBlur_inv in Hi; destruct Hi as [Href [px [_ ->]]].
    repeat split; assumption. }
  destruct (np_stack_uniform _ _ _ (dtype2 im') (rows im') (cols im') Hs)
    as [Hd [Hh [Hw [Hn _]]]].
  { intros b Hb; apply Hbody; exact Hb. }
  apply np_stack_inv in Hs; destruct Hs as [_ [_ Hat]].
  exists g, im'.
  split; [first [reflexivity | exact Hg]|].
  split; [first [reflexivity | exact Hr]|].
  split; [exact Hne|].
  split.
  { destruct arrs as [|b arrs]; [destruct levels; [congruence|discriminate]|].
    apply (Hbody b); left; reflexivity. }
  split; [exact Hd|].
  split; [unfold shape3; congruence|].
  intros l Hl.
  pose proof (for_append_nth _ _ _ _ _ 0%Z
                (Array2 float_ 0 0 (fun _ _ => 0%Q)) l Hloop Hl) as Hl'.
  unfold loop in Hl'.
  destruct (blur_args pow sigma0 k (nth l levels 0%Z)) as [[[s1 s2] sg]|e]
    eqn:Ha; simpl in Hl'; [|discriminate].
  assert (Hsz : s2 = s1).
  { unfold blur_args in Ha.
    repeat match type of Ha with
           | bind ?r _ = _ => destruct r; cbn [bind] in Ha; [|discriminate]
           end.
    inversion Ha; reflexivity. }
  subst s2.
  apply cv2_GaussianBlur_inv in Hl'; destruct Hl' as [_ [px [Hpx Hb]]].
  exists s1, sg, px; split; [reflexivity|]; split; [exact Hpx|].
  intros y x; rewrite (Hat (Array2 float_ 0 0 (fun _ _ => 0%Q))) by lia.
  rewrite Hb; reflexivity.
Qed.

(** ** The exceptions of the pipeline *)

Lemma as_float_raise (fn : string) (n : Z) (e : exception) :
  as_float fn n = Raise e -> raised_inside fn e.
Proof. unfold as_float; destruct (float_of_Z n); intros H; raised. Qed.

Lemma py_mul_raise (fn : string) (a b : number) (e : exception) :
  py_mul fn a b = Raise e -> raised_inside fn e.
Proof.
  destruct a as [m|x|x], b as [n|y|y]; cbn [py_mul]; intros H; raised;
    match type of H with
    | bind (as_float fn ?n) _ = _ =>
        destruct (as_float fn n) eqn:E; cbn [bind] in H; raised;
        exact (as_float_raise _ _ _ E)
    end.
Qed.

Lemma py_int_raise (fn : string) (x : float) (e : exception) :
  py_int fn x = Raise e -> raised_inside fn e.
Proof.
  unfold py_int; destruct (is_infinity x); [intros H; raised|].
  destruct (is_nan x); intros H; raised.
Qed.

Lemma floor_plus_one_raise (fn : string) (v : number) (e : exception) :
  floor_plus_one fn v = Raise e -> raised_inside fn e.
Proof.
  destruct v as [n|x|x]; cbn [floor_plus_one];
    try (apply py_int_raise).
  destruct (_ && _); [intros H; raised|].
  destruct (_ && _); intros H; raised.
Qed.

Lemma float_pow_raise pow (fn : string) (x : float) (i : Z) (e : exception) :
  float_pow pow fn x i = Raise e -> raised_inside fn e.
Proof.
  unfold float_pow.
  destruct (as_float fn i) as [iw|e0] eqn:E; cbn [bind];
    [|intros H; raised; exact (as_float_raise _ _ _ E)].
  repeat match goal with
         | |- (if ?c then _ else _) = _ -> _ => destruct c
         | |- (let _ := _ in _) = _ -> _ => cbv zeta
         end; intros H; raised.
Qed.

Lemma py_pow_raise pow (fn : string) (k : number) (i : Z) (e : exception) :
  py_pow pow fn k i = Raise e -> raised_inside fn e.
Proof.
  destruct k as [n|x|x]; cbn [py_pow].
  - destruct (0 <=? i)%Z; [intros H; raised|].
    destruct (as_float fn n) as [x|e0] eqn:E; cbn [bind];
      [|intros H; raised; exact (as_float_raise _ _ _ E)].
    destruct (float_pow pow fn x i) as [p|e0] eqn:E'; cbn [bind];
      intros H; raised; exact (float_pow_raise _ _ _ _ _ E').
  - destruct (float_pow pow fn x i) as [p|e0] eqn:E'; cbn [bind];
      intros H; raised; exact (float_pow_raise _ _ _ _ _ E').
  - destruct (as_float fn i) as [iw|e0] eqn:E; cbn [bind];
      intros H; raised; exact (as_float_raise _ _ _ E).
Qed.

Lemma blur_args_raise pow (sigma0 k : number) (i : Z) (e : exception) :
  blur_args pow sigma0 k i = Raise e ->
  raised_inside "createGaussianPyramid" e.
Proof.
  unfold blur_args.
  destruct (py_pow _ _ k i) as [p|e0] eqn:E1; cbn [bind];
    [|intros H; raised; exact (py_pow_raise _ _ _ _ _ E1)].
  destruct (py_mul _ sigma0 p) as [s|e0] eqn:E2; cbn [bind];
    [|intros H; raised; exact (py_mul_raise _ _ _ _ E2)].
  destruct (py_mul _ (PyInt 3) s) as [s3|e0] eqn:E3; cbn [bind];
    [|intros H; raised; exact (py_mul_raise _ _ _ _ E3)].
  destruct (py_mul _ s3 (PyInt 2)) as [s6|e0] eqn:E4; cbn [bind];
    [|intros H; raised; exact (py_mul_raise _ _ _ _ E4)].
  destruct (floor_plus_one _ s6) as [n|e0] eqn:E5; cbn [bind];
    intros H; raised; exact (floor_plus_one_raise _ _ _ E5).
Qed.

Lemma cv2_call_raised (A : Type) (fn : string) (r : option A) (e : exception) :
  cv2_call fn r = Raise e -> raised_inside fn e.
Proof. intros H; apply cv2_call_raise in H; subst; raised. Qed.

Lemma np_stack_raised (fn : string) (arrs : list (array2 Q)) (e : exception) :
  np_stack fn arrs = Raise e -> raised_inside fn e.
Proof. intros H; apply np_stack_raise in H; subst; raised. Qed.

Lemma createGaussianPyramid_raise pow cvt blur (im : image)
    (sigma0 k : number) (levels : list Z) (e : exception) :
  createGaussianPyramid pow cvt blur im sigma0 k levels = Raise e ->
  raised_inside "createGaussianPyramid" e.
Proof.
  rewrite createGaussianPyramid_unfold.
  destruct (gray_of cvt im) as [g|e0] eqn:Hg; cbn [bind].
  - unfold rescale, np_amax.
    destruct (entries g) as [|v vs]; cbn [bind]; [intros H; raised|].
    match goal with
    | |- bind (for_append ?body levels) _ = _ -> _ =>
        destruct (for_append body levels) as [arrs|e1] eqn:Hloop
    end; cbn [bind].
    + apply np_stack_raised.
    + intros H; raised.
      apply for_append_raise in Hloop; destruct Hloop as [i [_ Hi]].
      destruct (blur_args pow sigma0 k i) as [a|e2] eqn:Ha; cbn [bind] in Hi.
      * unfold cv2_GaussianBlur in Hi.
        destruct (cv2_call _ _) as [px|e3] eqn:Hc; cbn [bind] in Hi; raised.
        exact (cv2_call_raised _ _ _ _ Hc).
      * raised; exact (blur_args_raise _ _ _ _ _ Ha).
  - intros H; raised.
    destruct im as [g|c]; [discriminate|].
    unfold gray_of, cv2_cvtColor in Hg.
    destruct (cv2_call _ _) as [px|e3] eqn:Hc; cbn [bind] in Hg; raised.
    exact (cv2_call_raised _ _ _ _ Hc).
Qed.

Lemma createGaussianPyramid_levels pow cvt blur (im : image)
    (sigma0 k : number) (levels : list Z) (gp : array3 Q) :
  createGaussianPyramid pow cvt blur im sigma0 k levels = Ok gp ->
  nlev gp = List.length levels.
Proof.
  intros H; apply createGaussianPyramid_inv in H.
  destruct H as [g [im' [_ [_ [_ [_ [_ [Hs _]]]]]]]].
  unfold shape3 in Hs; inversion Hs; reflexivity.
Qed.



Lemma getLocalExtrema_two_levels (A : Type) (D : array3 Q)
    (DoG_levels : list Z) (pc : array3 A) (th th_r : Q) :
  nlev D <= 2 ->
  getLocalExtrema D DoG_levels pc th th_r
  = Raise (Exc "ValueError" "getLocalExtrema").
Proof.
  intros H; rewrite getLocalExtrema_unfold.
  replace (nlev D - 2) with 0 by lia; reflexivity.
Qed.

(** The derivatives do not decide the result of the pipeline: it fails at
    the first call of [cv2.Sobel] or runs [getLocalExtrema], which reads no
    curvature map. *)
Lemma DoGdetector_unfold pow cvt blur sobel (im : image) (sigma0 k : number)
    (levels : list Z) (th th_r : Q) :
  DoGdetector pow cvt blur sobel im sigma0 k levels th th_r =
  (gauss_pyramid <- createGaussianPyramid pow cvt blur im sigma0 k levels ;;
   dog <- createDoGPyramid gauss_pyramid levels ;;
   if Sobel_fails (fst dog)
   then Raise (Exc "cv2.error" "computePrincipalCurvature")
   else (locsDoG <- getLocalExtrema (fst dog) (snd dog) (fst dog) th 0%Q ;;
         Ok (locsDoG, gauss_pyramid))).
Proof.
  unfold DoGdetector.
  destruct (createGaussianPyramid pow cvt blur im sigma0 k levels) as [gp|e];
    [|reflexivity]; cbn [bind].
  destruct (createDoGPyramid gp levels) as [dog|e]; [|reflexivity].
  cbn [bind]; rewrite computePrincipalCurvature_unfold.
  destruct (Sobel_fails (fst dog)); reflexivity.
Qed.


(** A Gaussian pyramid that was built is accepted by [cv2.Sobel], and so
    is its DoG pyramid. *)
Lemma createGaussianPyramid_accepted pow cvt blur (im : image)
    (sigma0 k : number) (levels : list Z) (gp : array3 Q) :
  createGaussianPyramid pow cvt blur im sigma0 k levels = Ok gp ->
  cv2_refuses (dtype3 gp) (imH gp) (imW gp) = false /\
  dtype3 gp <> bool_ /\ 0 < imH gp /\ 0 < imW gp.
Proof.
  intros H; apply createGaussianPyramid_inv in H.
  destruct H as [g [im' [_ [Hr [_ [Href [Hd [Hs _]]]]]]]].
  unfold shape3 in Hs; inversion Hs as [[Hh Hw Hn]].
  rewrite Hd, Hh, Hw; split; [exact Href|].
  apply rescale_nonempty in Hr.
  split; [|exact Hr].
  intros Hb; rewrite Hb in Href; discriminate Href.
Qed.

Lemma DoGdetector_three_levels pow cvt blur sobel (im : image)
    (sigma0 k : number) (levels : list Z) (th th_r : Q) (gp : array3 Q) :
  List.length levels = 3 ->
  createGaussianPyramid pow cvt blur im sigma0 k levels = Ok gp ->
  DoGdetector pow cvt blur sobel im sigma0 k levels th th_r
  = Raise (Exc "ValueError" "getLocalExtrema").
Proof.
  intros HL Hg; rewrite DoGdetector_unfold, Hg; cbn [bind].
  assert (Hn : nlev gp = 3)
    by (rewrite (createGaussianPyramid_levels _ _ _ _ _ _ _ _ Hg); exact HL).
  destruct (createGaussianPyramid_accepted _ _ _ _ _ _ _ _ Hg)
    as [Href [Hd _]].
  rewrite createDoGPyramid_total by (assumption || lia).
  cbn [bind fst snd]; unfold Sobel_fails; cbn [dtype3 imH imW].
  rewrite Href, andb_false_r.
  rewrite getLocalExtrema_two_levels by (simpl; lia).
  reflexivity.
Qed.

(** ** C3 *)

(** C3: the keypoints do not depend on [th_r]: [getLocalExtrema] gives one
    result for any two values of [th_r] and any two curvature maps, and
    [DoGdetector] gives one result for any two values of [th_r], whatever
    the derivative operator that computes the curvature. *)
Theorem th_r_never_applied :
  (forall (A A' : Type) D DoG_levels (pc : array3 A) (pc' : array3 A')
          th_contrast th_r th_r',
      getLocalExtrema D DoG_levels pc th_contrast th_r =
      getLocalExtrema D DoG_levels pc' th_contrast th_r') /\
  (forall pow cvt blur sobel sobel' im sigma0 k levels th_contrast th_r th_r',
      DoGdetector pow cvt blur sobel im sigma0 k levels th_contrast th_r =
      DoGdetector pow cvt blur sobel' im sigma0 k levels th_contrast th_r').
Proof.
  split.
  - intros; unfold getLocalExtrema; reflexivity.
  - intros; rewrite !DoGdetector_unfold; reflexivity.
Qed.

(** ** C6 *)

Lemma is_extrema_weaken (D : array3 Q) (th1 th2 : Q) (l i j : nat) :
  (th1 <= th2)%Q ->
  at2 (is_extrema D th2 l) i j = true ->
  at2 (is_extrema D th1 l) i j = true.
Proof.
  intros Hth; rewrite !is_extrema_at, !andb_true_iff, !qge_true.
  intros [Hm Hc]; split; [exact Hm|].
  apply Qle_trans with th2; assumption.
Qed.

Lemma filter_weaken (A : Type) (p q : A -> bool) (l : list A) :
  (forall a, In a l -> q a = true -> p a = true) ->
  List.length (filter q l) <= List.length (filter p l).
Proof.
  induction l as [|a l IH]; intros Hpq; simpl; [lia|].
  assert (IH' : List.length (filter q l) <= List.length (filter p l))
    by (apply IH; intros b Hb; apply Hpq; right; exact Hb).
  destruct (q a) eqn:Hq.
  - rewrite (Hpq a (or_introl eq_refl) Hq); simpl; lia.
  - destruct (p a); simpl; lia.
Qed.

Lemma level_rows_weaken (D : array3 Q) (th1 th2 : Q) (l : nat) :
  (th1 <= th2)%Q ->
  incl (level_rows D th2 l) (level_rows D th1 l) /\
  List.length (level_rows D th2 l) <=
  List.length (level_rows D th1 l).
Proof.
  intros Hth; split.
  - intros [[x y] l'] Hk.
    apply level_rows_In in Hk; apply level_rows_In.
    destruct Hk as [Hl [Hx [Hy [Hw [Hh Hm]]]]].
    repeat split; try assumption.
    apply is_extrema_weaken with th2; assumption.
  - unfold level_rows, np_where; rewrite !length_map.
    destruct (is_extrema_shape D th1 l) as [R1 C1].
    destruct (is_extrema_shape D th2 l) as [R2 C2].
    rewrite R1, C1, R2, C2.
    apply filter_weaken; intros [i j] _; cbn [fst snd].
    apply is_extrema_weaken; exact Hth.
Qed.

Lemma concat_map_length_le (A B : Type) (f g : A -> list B) (l : list A) :
  (forall a, List.length (g a) <= List.length (f a)) ->
  List.length (List.concat (map g l)) <= List.length (List.concat (map f l)).
Proof.
  intros Hfg; induction l as [|a l IH]; simpl; [lia|].
  rewrite !length_app; specialize (Hfg a); lia.
Qed.

Lemma getLocalExtrema_narrows (A : Type) (D : array3 Q) (DoG_levels : list Z)
    (pc : array3 A) (th1 th2 th_r : Q) :
  (th1 <= th2)%Q ->
  narrows (getLocalExtrema D DoG_levels pc th1 th_r)
          (getLocalExtrema D DoG_levels pc th2 th_r).
Proof.
  intros Hth; unfold narrows; rewrite !getLocalExtrema_unfold.
  destruct (forallb _ _); [|reflexivity].
  destruct (seq 1 (nlev D - 2)) as [|l ls]; [reflexivity|].
  generalize (l :: ls) as levels; intros levels.
  unfold np_concatenate.
  destruct (map (level_rows D th1) levels) eqn:E1;
    destruct (map (level_rows D th2) levels) eqn:E2;
    try reflexivity;
    try (destruct levels; discriminate).
  rewrite <- E1, <- E2; split.
  - intros k Hk; apply in_concat in Hk; apply in_concat.
    destruct Hk as [ks [Hks Hk]].
    apply in_map_iff in Hks; destruct Hks as [l' [<- Hl']].
    exists (level_rows D th1 l'); split; [apply in_map; exact Hl'|].
    apply (level_rows_weaken D th1 th2 l' Hth); exact Hk.
  - apply concat_map_length_le; intros l'.
    apply (level_rows_weaken D th1 th2 l' Hth).
Qed.

(** C6: if [th_contrast1 <= th_contrast2], the keypoints detected with
    [th_contrast2] are among those detected with [th_contrast1] and are no
    more numerous, for [getLocalExtrema] on a fixed DoG pyramid and for
    [DoGdetector] on a fixed image with the other parameters fixed (the two
    runs fail together, with one exception). *)
Theorem th_contrast_monotone pow cvt blur sobel (im : image)
    (sigma0 k : number) (levels : list Z) (D : array3 Q)
    (DoG_levels : list Z) (pc : array3 Q)
    (th_contrast1 th_contrast2 th_r : Q) :
  (th_contrast1 <= th_contrast2)%Q ->
  narrows (getLocalExtrema D DoG_levels pc th_contrast1 th_r)
          (getLocalExtrema D DoG_levels pc th_contrast2 th_r) /\
  narrows
    (keypoints_of
       (DoGdetector pow cvt blur sobel im sigma0 k levels th_contrast1 th_r))
    (keypoints_of
       (DoGdetector pow cvt blur sobel im sigma0 k levels th_contrast2 th_r)).
Proof.
  intros Hth; split; [apply getLocalExtrema_narrows; exact Hth|].
  rewrite !DoGdetector_unfold.
  destruct (createGaussianPyramid pow cvt blur im sigma0 k levels) as [gp|e];
    cbn [bind keypoints_of narrows]; [|reflexivity].
  destruct (createDoGPyramid gp levels) as [[dog dl]|e];
    cbn [bind keypoints_of narrows fst snd]; [|reflexivity].
  destruct (Sobel_fails dog); cbn [keypoints_of narrows]; [reflexivity|].
  generalize (getLocalExtrema_narrows _ dog dl dog th_contrast1
                th_contrast2 0%Q Hth).
  destruct (getLocalExtrema dog dl dog th_contrast1 0%Q);
    destruct (getLocalExtrema dog dl dog th_contrast2 0%Q); simpl; trivial.
Qed.

Lemma th_contrast_monotone_witness :
  (0 <= default_th_contrast)%Q /\
  getLocalExtrema peak_pyramid [0; 1; 2]%Z peak_pyramid 0 default_th_r
  = Ok [(1, 1, 1); (2, 1, 1); (1, 2, 1); (2, 2, 1)] /\
  getLocalExtrema peak_pyramid [0; 1; 2]%Z peak_pyramid
                  default_th_contrast default_th_r
  = Ok [(1, 1, 1)] /\
  narrows (getLocalExtrema peak_pyramid [0; 1; 2]%Z peak_pyramid
                           0 default_th_r)
          (getLocalExtrema peak_pyramid [0; 1; 2]%Z peak_pyramid
                           default_th_contrast default_th_r) /\
  narrows
    (keypoints_of
       (DoGdetector pow_int cvt_luma blur_copy Sobel3 gray3
                    (PyInt 1) (PyInt 1) default_levels 0 default_th_r))
    (keypoints_of
       (DoGdetector pow_int cvt_luma blur_copy Sobel3 gray3
                    (PyInt 1) (PyInt 1) default_levels
                    default_th_contrast default_th_r)).
Proof.
  assert (Hth : (0 <= default_th_contrast)%Q)
    by (apply Qle_bool_iff; reflexivity).
  split; [exact Hth|].
  split; [vm_compute; reflexivity|].
  split; [vm_compute; reflexivity|].
  exact (th_contrast_monotone pow_int cvt_luma blur_copy Sobel3 gray3
           (PyInt 1) (PyInt 1) default_levels peak_pyramid [0; 1; 2]%Z
           peak_pyramid 0 default_th_contrast default_th_r Hth).
Defined.

(** ** C4 *)

(** C4, as stated, fails on [levels = [-1, 0, 1]]: the exception is the
    [ValueError] of [getLocalExtrema], not [InvalidParameter]. *)
Lemma three_levels_not_InvalidParameter :
  DoGdetector pow_int cvt_luma blur_copy Sobel3 gray3 (PyInt 1) (PyInt 1)
              [-1; 0; 1]%Z default_th_contrast default_th_r
  = Raise (Exc "ValueError" "getLocalExtrema") /\
  ~ raises "InvalidParameter"
      (DoGdetector pow_int cvt_luma blur_copy Sobel3 gray3 (PyInt 1) (PyInt 1)
                   [-1; 0; 1]%Z default_th_contrast default_th_r).
Proof.
  assert (Hrun : DoGdetector pow_int cvt_luma blur_copy Sobel3 gray3
                             (PyInt 1) (PyInt 1) [-1; 0; 1]%Z
                             default_th_contrast default_th_r
                 = Raise (Exc "ValueError" "getLocalExtrema"))
    by (vm_compute; reflexivity).
  split; [exact Hrun|].
  intros [e [He Hty]]; rewrite Hrun in He; inversion He; subst e.
  discriminate Hty.
Qed.

(** C4 (amended): with a [levels] sequence of exactly 3 entries the pipeline
    returns no result and does not raise [InvalidParameter]; whenever the
    Gaussian pyramid is built, the call fails inside the detector, where
    [getLocalExtrema] raises [ValueError] on concatenating an empty list. *)
Theorem three_levels_fail_in_detector pow cvt blur sobel (im : image)
    (sigma0 k : number) (levels : list Z) (th_contrast th_r : Q) :
  List.length levels = 3 ->
  ~ returns (DoGdetector pow cvt blur sobel im sigma0 k levels
                         th_contrast th_r) /\
  ~ raises "InvalidParameter"
      (DoGdetector pow cvt blur sobel im sigma0 k levels th_contrast th_r) /\
  (returns (createGaussianPyramid pow cvt blur im sigma0 k levels) ->
   DoGdetector pow cvt blur sobel im sigma0 k levels th_contrast th_r
   = Raise (Exc "ValueError" "getLocalExtrema")).
Proof.
  intros HL.
  destruct (createGaussianPyramid pow cvt blur im sigma0 k levels) as [gp|e0]
    eqn:Hg.
  - rewrite (DoGdetector_three_levels pow cvt blur sobel im sigma0 k levels
               th_contrast th_r gp HL Hg).
    repeat split.
    + intros [a Ha]; discriminate Ha.
    + intros [e [He Hty]]; inversion He; subst e; discriminate Hty.
  - assert (Hrun : DoGdetector pow cvt blur sobel im sigma0 k levels
                               th_contrast th_r = Raise e0)
      by (unfold DoGdetector; rewrite Hg; reflexivity).
    rewrite Hrun; repeat split.
    + intros [a Ha]; discriminate Ha.
    + intros [e [He Hty]]; inversion He; subst e.
      exact (proj2 (createGaussianPyramid_raise _ _ _ _ _ _ _ _ Hg) Hty).
    + intros [a Ha]; discriminate Ha.
Qed.

Lemma three_levels_fail_in_detector_witness :
  List.length [-1; 0; 1]%Z = 3 /\
  returns (createGaussianPyramid pow_int cvt_luma blur_copy gray3
                                 (PyInt 1) (PyInt 1) [-1; 0; 1]%Z) /\
  DoGdetector pow_int cvt_luma blur_copy Sobel3 gray3 (PyInt 1) (PyInt 1)
              [-1; 0; 1]%Z default_th_contrast default_th_r
  = Raise (Exc "ValueError" "getLocalExtrema").
Proof.
  split; [reflexivity|].
  assert (Hg : returns (createGaussianPyramid pow_int cvt_luma blur_copy gray3
                                               (PyInt 1) (PyInt 1)
                                               [-1; 0; 1]%Z))
    by (eexists; vm_compute; reflexivity).
  split; [exact Hg|].
  exact (proj2 (proj2 (three_levels_fail_in_detector
                         pow_int cvt_luma blur_copy Sobel3 gray3
                         (PyInt 1) (PyInt 1) [-1; 0; 1]%Z
                         default_th_contrast default_th_r eq_refl)) Hg).
Defined.

(** ** C5 *)






(** ** C8 *)

(** C8: the kernel size is not made odd.  With [sigma0 = 1], [k = 2] and the
    level [-1] of the default [levels] the standard deviation is [0.5] and
    the size passed to the blur is [int(floor(3.0) + 1) = 4], and so it is
    with [sigma0 = 0.5] at the level 0, whatever [pow] computes; a blur
    that requires an odd size, as [cv2.GaussianBlur] does, fails. *)
Theorem kernel_size_even :
  blur_args pow_int (PyInt 1) (PyInt 2) (-1) = Ok (4%Z, 4%Z, PyFloat 0.5) /\
  (forall pow, blur_args pow (PyFloat 0.5) (PyInt 2) 0
               = Ok (4%Z, 4%Z, PyFloat 0.5)) /\
  Z.odd 4 = false /\
  createGaussianPyramid pow_int cvt_luma blur_copy gray3 (PyInt 1) (PyInt 2)
                        default_levels
  = Raise (Exc "cv2.error" "createGaussianPyramid").
Proof.
  split; [vm_compute; reflexivity|].
  split; [intros pow; vm_compute; reflexivity|].
  split; [reflexivity|].
  vm_compute; reflexivity.
Qed.

(** ** C9 *)

Lemma epsilon_positive : (0 < epsilon)%Q.
Proof. reflexivity. Qed.

Lemma fix_zero_nonzero (d : Q) :
  ~ ((if Qeq_bool d 0 then epsilon else d) == 0)%Q.
Proof.
  destruct (Qeq_bool d 0) eqn:Hd.
  - intros H; discriminate H.
  - apply Qeq_bool_neq; exact Hd.
Qed.

Lemma true_divide_finite (a b : Q) :
  ~ (b == 0)%Q -> true_divide a b = Finite (a / b)%Q.
Proof.
  intros Hb; unfold true_divide.
  destruct (Qeq_bool b 0) eqn:E; [|reflexivity].
  apply Qeq_bool_iff in E; contradiction.
Qed.

Lemma Sobel_accepts_image (D : array3 Q) :
  dtype3 D <> bool_ -> 0 < imH D -> 0 < imW D ->
  cv2_refuses (dtype3 D) (imH D) (imW D) = false /\ Sobel_fails D = false.
Proof.
  intros Hd Hh Hw; unfold Sobel_fails, cv2_refuses.
  destruct (dtype3 D); [congruence | |];
    (replace (imH D =? 0) with false by (symmetry; apply Nat.eqb_neq; lia);
     replace (imW D =? 0) with false by (symmetry; apply Nat.eqb_neq; lia);
     rewrite andb_false_r; split; reflexivity).
Qed.

(** The map that is returned: the shape of the pyramid, and at every level
    the ratio of that level. *)
Lemma computePrincipalCurvature_ok sobel (D : array3 Q)
    (pc : array3 fvalue) :
  computePrincipalCurvature sobel D = Ok pc ->
  Sobel_fails D = false /\
  dtype3 pc = float_ /\
  shape3 pc = shape3 D /\
  forall l y x,
    l < nlev D ->
    at3 pc y x l = at2 (curvature_image sobel (level_image D l)) y x.
Proof.
  rewrite computePrincipalCurvature_unfold.
  destruct (Sobel_fails D); [discriminate|].
  intros H; inversion H; subst pc; clear H.
  split; [reflexivity|].
  destruct (fold_set_level_shape
              fvalue (fun l => curvature_image sobel (level_image D l))
              (range (Z.of_nat (nlev D))) (np_zeros (shape3 D))) as [Hs Hd].
  split; [rewrite Hd; reflexivity|].
  split; [rewrite Hs; reflexivity|].
  intros l y x Hl.
  rewrite (fold_set_level_at
             fvalue (fun l => curvature_image sobel (level_image D l))).
  rewrite range_existsb by exact Hl; reflexivity.
Qed.

(** C9, as stated, fails at two places.  On a DoG pyramid without pixels the
    function is not total: the first call of [cv2.Sobel] raises
    [cv2.error].  And on a DoG pyramid of 8 bits, as the pipeline computes
    it from a dark 8-bit image (here a black one), the zero determinant is
    not replaced: [1e-10] is stored as the integer 0, and the ratio is
    [0/0], a NaN. *)
Lemma computePrincipalCurvature_fails :
  computePrincipalCurvature Sobel3 empty_DoG
  = Raise (Exc "cv2.error" "computePrincipalCurvature") /\
  (pc <- computePrincipalCurvature Sobel3 black_DoG ;;
   Ok (shape3 pc, at3 pc 1 1 0)) = Ok ((3, 3, 1), NaN) /\
  (gp <- createGaussianPyramid pow_int cvt_luma blur_copy black3
                               (PyInt 1) (PyInt 1) default_levels ;;
   dog <- createDoGPyramid gp default_levels ;;
   pc <- computePrincipalCurvature Sobel3 (fst dog) ;;
   Ok (dtype3 (fst dog), at3 (fst dog) 1 1 1, at3 pc 1 1 1))
  = Ok (uint8, 0%Q, NaN).
Proof. repeat split; vm_compute; reflexivity. Qed.

(** C9 (amended): on every DoG pyramid of floats that has pixels,
    [computePrincipalCurvature] returns a map of the shape of the pyramid
    that holds at every pixel of every level the number
    [(dxx+dyy)^2 / D], where [dxx], [dxy] and [dyy] are the second
    derivatives of the level by [cv2.Sobel] and a determinant
    [D = dxx*dyy - dxy^2] that is exactly zero has been replaced by the
    positive number [1e-10], so that the divisor is never zero. *)
Theorem computePrincipalCurvature_ratio sobel (DoG_pyramid : array3 Q) :
  dtype3 DoG_pyramid = float_ ->
  0 < imH DoG_pyramid ->
  0 < imW DoG_pyramid ->
  exists pc,
    computePrincipalCurvature sobel DoG_pyramid = Ok pc /\
    shape3 pc = shape3 DoG_pyramid /\
    forall l y x,
      l < nlev DoG_pyramid ->
      let image f := Array2 float_ (imH DoG_pyramid) (imW DoG_pyramid) f in
      let img := image (fun y x => at3 DoG_pyramid y x l) in
      let dx := image (sobel img (-1) 1 0)%Z in
      let dy := image (sobel img (-1) 0 1)%Z in
      let dxx := sobel dx (-1)%Z 1%Z 0%Z y x in
      let dxy := sobel dx (-1)%Z 0%Z 1%Z y x in
      let dyy := sobel dy (-1)%Z 0%Z 1%Z y x in
      let D := (dxx * dyy - dxy ^ 2)%Q in
      let D' := if Qeq_bool D 0 then epsilon else D in
      ((D == 0)%Q -> D' = (1 # 10000000000)%Q) /\
      (0 < epsilon)%Q /\
      ~ (D' == 0)%Q /\
      at3 pc y x l = Finite ((dxx + dyy) ^ 2 / D')%Q.
Proof.
  intros Hd Hh Hw.
  destruct (Sobel_accepts_image DoG_pyramid) as [_ Hok];
    [congruence | assumption | assumption |].
  destruct (computePrincipalCurvature sobel DoG_pyramid) as [pc|e] eqn:Hrun;
    [|rewrite computePrincipalCurvature_unfold, Hok in Hrun; discriminate].
  exists pc; split; [reflexivity|].
  destruct (computePrincipalCurvature_ok _ _ _ Hrun) as [_ [_ [Hs Hat]]].
  split; [exact Hs|].
  intros l y x Hl image img dx dy dxx dxy dyy D D'.
  split.
  { intros HD; unfold D'.
    apply Qeq_bool_iff in HD; rewrite HD; reflexivity. }
  split; [apply epsilon_positive|].
  split; [apply fix_zero_nonzero|].
  rewrite (Hat l y x Hl).
  rewrite <- (true_divide_finite _ D' (fix_zero_nonzero D)).
  unfold curvature_image, level_image, Sobel_image; cbn [dtype2 rows cols at2].
  unfold D', D, dxx, dxy, dyy, dx, dy, img, image; clear Hrun Hat Hs.
  destruct DoG_pyramid as [dt h w n f]; cbn [dtype3 imH imW nlev at3] in *.
  subst dt; reflexivity.
Qed.

Lemma computePrincipalCurvature_ratio_witness :
  exists pc,
    computePrincipalCurvature Sobel3 peak_pyramid = Ok pc /\
    shape3 pc = shape3 peak_pyramid /\
    let image f := Array2 float_ 4 4 f in
    let img := image (fun y x => at3 peak_pyramid y x 1) in
    let dx := image (Sobel3 img (-1) 1 0)%Z in
    let dy := image (Sobel3 img (-1) 0 1)%Z in
    let dxx := Sobel3 dx (-1)%Z 1%Z 0%Z 3 1 in
    let dxy := Sobel3 dx (-1)%Z 0%Z 1%Z 3 1 in
    let dyy := Sobel3 dy (-1)%Z 0%Z 1%Z 3 1 in
    let D := (dxx * dyy - dxy ^ 2)%Q in
    let D' := if Qeq_bool D 0 then epsilon else D in
    (D == 0)%Q /\
    D' = (1 # 10000000000)%Q /\
    ~ (D' == 0)%Q /\
    at3 pc 3 1 1 = Finite ((dxx + dyy) ^ 2 / D')%Q /\
    ((dxx + dyy) ^ 2 / D' == 10000000000)%Q.
Proof.
  destruct (computePrincipalCurvature_ratio Sobel3 peak_pyramid)
    as [pc [Hrun [Hs Hpix]]]; [reflexivity | simpl; lia | simpl; lia |].
  exists pc; split; [exact Hrun|]; split; [exact Hs|].
  destruct (Hpix 1 3 1) as [H0 [_ [Hnz Hat]]]; [simpl; lia|].
  cbv zeta.
  assert (HD : (Sobel3 (Array2 float_ 4 4
                          (Sobel3 (Array2 float_ 4 4
                                     (fun y x => at3 peak_pyramid y x 1))
                                  (-1) 1 0)%Z) (-1) 1 0 3 1 *
                Sobel3 (Array2 float_ 4 4
                          (Sobel3 (Array2 float_ 4 4
                                     (fun y x => at3 peak_pyramid y x 1))
                                  (-1) 0 1)%Z) (-1) 0 1 3 1 -
                Sobel3 (Array2 float_ 4 4
                          (Sobel3 (Array2 float_ 4 4
                                     (fun y x => at3 peak_pyramid y x 1))
                                  (-1) 1 0)%Z) (-1) 0 1 3 1 ^ 2 == 0)%Q)
    by (vm_compute; reflexivity).
  split; [exact HD|].
  split; [exact (H0 HD)|].
  split; [exact Hnz|].
  split; [exact Hat|].
  vm_compute; reflexivity.
Defined.
(** ** C10 *)

Lemma reflect_lt (n i : nat) (d : Z) :
  i < n -> In d offsets3 -> reflect n (Z.of_nat i + d) < n.
Proof.
  intros Hi Hd; unfold reflect.
  destruct (Z.ltb_spec (Z.of_nat i + d) 0);
    destruct (Z.leb_spec (Z.of_nat n) (Z.of_nat i + d));
    simpl in Hd; lia.
Qed.

Lemma window3_agree (a b : array2 Q) (i j : nat) :
  agree2 a b -> i < rows a -> j < cols a -> window3 a i j = window3 b i j.
Proof.
  intros [Hr [Hc Hat]] Hi Hj; unfold window3.
  rewrite <- Hr, <- Hc.
  apply map_ext_in; intros [di dj] Hd; cbn [fst snd].
  apply in_prod_iff in Hd; destruct Hd as [Hdi Hdj].
  apply Hat; apply reflect_lt; assumption.
Qed.

Lemma maximum_filter_agree (a b : array2 Q) :
  agree2 a b -> agree2 (maximum_filter a) (maximum_filter b).
Proof.
  intros Hab; pose proof Hab as [Hr [Hc Hat]].
  repeat split; try assumption.
  intros i j Hi Hj; cbn [maximum_filter at2 rows cols] in *.
  rewrite (window3_agree a b i j Hab Hi Hj), (Hat i j Hi Hj); reflexivity.
Qed.

Lemma minimum_filter_agree (a b : array2 Q) :
  agree2 a b -> agree2 (minimum_filter a) (minimum_filter b).
Proof.
  intros Hab; pose proof Hab as [Hr [Hc Hat]].
  repeat split; try assumption.
  intros i j Hi Hj; cbn [minimum_filter at2 rows cols] in *.
  rewrite (window3_agree a b i j Hab Hi Hj), (Hat i j Hi Hj); reflexivity.
Qed.

Lemma zip2_agree (A B C : Type) (f : A -> B -> C) (a a' : array2 A)
    (b b' : array2 B) :
  agree2 a a' -> rows a = rows b -> cols a = cols b -> agree2 b b' ->
  agree2 (zip2 f a b) (zip2 f a' b').
Proof.
  intros [Hr [Hc Hat]] Hrb Hcb [_ [_ Hbt]].
  repeat split; try assumption.
  intros i j Hi Hj; cbn [zip2 at2 rows cols] in *.
  rewrite (Hat i j Hi Hj), (Hbt i j) by lia; reflexivity.
Qed.

Lemma compare2_agree (A B : Type) (f : A -> B -> bool) (a a' : array2 A)
    (b b' : array2 B) :
  agree2 a a' -> rows a = rows b -> cols a = cols b -> agree2 b b' ->
  agree2 (compare2 f a b) (compare2 f a' b').
Proof.
  intros [Hr [Hc Hat]] Hrb Hcb [_ [_ Hbt]].
  repeat split; try assumption.
  intros i j Hi Hj; cbn [compare2 at2 rows cols] in *.
  rewrite (Hat i j Hi Hj), (Hbt i j) by lia; reflexivity.
Qed.

Lemma test2_agree (A : Type) (f : A -> bool) (a a' : array2 A) :
  agree2 a a' -> agree2 (test2 f a) (test2 f a').
Proof.
  intros [Hr [Hc Hat]]; repeat split; try assumption.
  intros i j Hi Hj; cbn [test2 at2 rows cols] in *.
  rewrite (Hat i j Hi Hj); reflexivity.
Qed.

Lemma interior_agree (D D' : array3 Q) (l : nat) :
  same_interior D D' -> agree2 (interior D l) (interior D' l).
Proof.
  intros [Hshape Hat]; unfold shape3 in Hshape; inversion Hshape.
  unfold interior; repeat split; cbn [rows cols at2]; try congruence.
  intros i j Hi Hj; apply Hat; lia.
Qed.

Lemma is_extrema_agree (D D' : array3 Q) (th : Q) (l : nat) :
  same_interior D D' -> agree2 (is_extrema D th l) (is_extrema D' th l).
Proof.
  intros HD.
  pose proof (interior_agree D D' l HD) as H0.
  pose proof (interior_agree D D' (l - 1) HD) as Hlo.
  pose proof (interior_agree D D' (l + 1) HD) as Hhi.
  unfold is_extrema, local_extrema.
  repeat match goal with
         | |- agree2 (zip2 _ _ _) (zip2 _ _ _) => apply zip2_agree
         | |- agree2 (compare2 _ _ _) (compare2 _ _ _) => apply compare2_agree
         | |- agree2 (test2 _ _) (test2 _ _) => apply test2_agree
         | |- agree2 (maximum_filter _) _ => apply maximum_filter_agree
         | |- agree2 (minimum_filter _) _ => apply minimum_filter_agree
         | |- _ = _ => reflexivity
         | _ => assumption
         end.
Qed.

Lemma np_where_agree (m m' : array2 bool) :
  agree2 m m' -> np_where m = np_where m'.
Proof.
  intros [Hr [Hc Hat]]; unfold np_where; rewrite <- Hr, <- Hc.
  apply filter_ext_in; intros [i j] Hij; cbn [fst snd].
  apply in_prod_iff in Hij; destruct Hij as [Hi Hj].
  apply in_seq in Hi; apply in_seq in Hj; apply Hat; lia.
Qed.

Lemma getLocalExtrema_border (A A' : Type) (D D' : array3 Q)
    (DoG_levels DoG_levels' : list Z) (pc : array3 A) (pc' : array3 A')
    (th_contrast th_r th_r' : Q) :
  same_interior D D' ->
  getLocalExtrema D DoG_levels pc th_contrast th_r =
  getLocalExtrema D' DoG_levels' pc' th_contrast th_r'.
Proof.
  intros HD; rewrite !getLocalExtrema_unfold.
  assert (Hn : nlev D = nlev D')
    by (destruct HD as [Hs _]; unfold shape3 in Hs; congruence).
  rewrite <- Hn.
  destruct (forallb _ _); [|reflexivity].
  f_equal; apply map_ext; intros l; unfold level_rows.
  rewrite (np_where_agree _ _ (is_extrema_agree D D' th_contrast l HD)).
  reflexivity.
Qed.

Lemma peak_pyramids_same_interior : same_interior peak_pyramid peak_pyramid_dark.
Proof.
  split; [reflexivity|].
  intros y x l Hy1 Hy2 Hx1 Hx2; simpl in Hy2, Hx2.
  assert (Hy : y = 1 \/ y = 2) by lia.
  assert (Hx : x = 1 \/ x = 2) by lia.
  destruct Hy; destruct Hx; subst;
    (destruct l as [|[|[|l]]]; [reflexivity ..|destruct l; reflexivity]).
Qed.

(** C10: some DoG pyramid has a keypoint, emitted by [getLocalExtrema] in the
    row and column next to the border of the image, whose DoG value is
    strictly smaller than the value of a neighbour on the border of its
    level (and strictly greater than the value of another neighbour, so it
    is no minimum either); and the border pixels are never consulted: two
    pyramids that differ only on the outer border of one pixel give the same
    result. *)
Theorem border_pixels_never_consulted :
  (exists (D : array3 Q) (DoG_levels : list Z) (pc : array3 Q)
          (th_contrast th_r : Q) (kps : list keypoint)
          (x y l x' y' x'' y'' : nat),
      getLocalExtrema D DoG_levels pc th_contrast th_r = Ok kps /\
      In (x, y, l) kps /\
      (x = 1 \/ x = imW D - 2 \/ y = 1 \/ y = imH D - 2) /\
      border_neighbour (imH D) (imW D) x y x' y' /\
      (at3 D y x l < at3 D y' x' l)%Q /\
      (x'' = x + 1 /\ y'' = y + 1 /\ x'' < imW D /\ y'' < imH D) /\
      (at3 D y'' x'' l < at3 D y x l)%Q) /\
  (forall D D' DoG_levels (pc : array3 Q) th_contrast th_r,
      same_interior D D' ->
      getLocalExtrema D DoG_levels pc th_contrast th_r =
      getLocalExtrema D' DoG_levels pc th_contrast th_r).
Proof.
  split.
  - exists peak_pyramid, [0; 1; 2]%Z, peak_pyramid, default_th_contrast,
      default_th_r, [(1, 1, 1)], 1, 1, 1, 0, 0, 2, 2.
    split; [vm_compute; reflexivity|].
    split; [left; reflexivity|].
    split; [left; reflexivity|].
    split.
    { unfold border_neighbour; simpl.
      repeat split; try lia; try (left; reflexivity); discriminate. }
    split; [reflexivity|].
    split; [simpl; lia | reflexivity].
  - intros; apply getLocalExtrema_border; assumption.
Qed.

Lemma border_pixels_never_consulted_witness :
  same_interior peak_pyramid peak_pyramid_dark /\
  (at3 peak_pyramid 0 0 1 == 9 # 10)%Q /\
  (at3 peak_pyramid_dark 0 0 1 == 0)%Q /\
  getLocalExtrema peak_pyramid [0; 1; 2]%Z peak_pyramid
                  default_th_contrast default_th_r =
  getLocalExtrema peak_pyramid_dark [0; 1; 2]%Z peak_pyramid
                  default_th_contrast default_th_r.
Proof.
  split; [exact peak_pyramids_same_interior|].
  split; [reflexivity|].
  split; [reflexivity|].
  exact (proj2 border_pixels_never_consulted
           peak_pyramid peak_pyramid_dark [0; 1; 2]%Z peak_pyramid
           default_th_contrast default_th_r peak_pyramids_same_interior).
Defined.


(** * Further properties *)

(** ** The outcomes of createDoGPyramid *)

Lemma for_append_first_raise (A B : Type) (body : A -> result B)
    (l1 l2 : list A) (a : A) (e : exception) :
  (forall x, In x l1 -> exists b, body x = Ok b) ->
  body a = Raise e ->
  for_append body (l1 ++ a :: l2) = Raise e.
Proof.
  intros Hok Ha; induction l1 as [|x l1 IH]; simpl.
  - rewrite Ha; reflexivity.
  - destruct (Hok x (or_introl eq_refl)) as [b Hb]; rewrite Hb; simpl.
    rewrite IH by (intros x' Hx'; apply Hok; right; exact Hx').
    reflexivity.
Qed.

Lemma createDoGPyramid_short (gp : array3 Q) (levels : list Z) :
  List.length levels <= 1 ->
  createDoGPyramid gp levels = Raise (Exc "ValueError" "createDoGPyramid").
Proof.
  intros HL; unfold createDoGPyramid, range, len.
  replace (Z.to_nat (Z.of_nat (List.length levels) - 1)) with 0 by lia.
  reflexivity.
Qed.

Lemma createDoGPyramid_missing_level (gp : array3 Q) (levels : list Z) :
  2 <= List.length levels ->
  dtype3 gp <> bool_ ->
  nlev gp < List.length levels ->
  createDoGPyramid gp levels = Raise (Exc "IndexError" "createDoGPyramid").
Proof.
  intros H2 Hd Hlt; unfold createDoGPyramid, range, len.
  replace (Z.to_nat (Z.of_nat (List.length levels) - 1))
    with ((nlev gp - 1) + S (List.length levels - 1 - S (nlev gp - 1)))
    by lia.
  rewrite seq_app; cbn [seq].
  rewrite for_append_first_raise
    with (e := Exc "IndexError" "createDoGPyramid"); [reflexivity| |].
  - intros i Hi; apply in_seq in Hi; unfold level.
    assert (H1 : (i + 1 <? nlev gp) = true) by (apply Nat.ltb_lt; lia).
    assert (H0 : (i <? nlev gp) = true) by (apply Nat.ltb_lt; lia).
    rewrite H1, H0; unfold bind, np_subtract; cbn [dtype2].
    destruct (dtype3 gp); [congruence | |]; eexists; reflexivity.
  - unfold level.
    assert (H1 : (0 + (nlev gp - 1) + 1 <? nlev gp) = false)
      by (apply Nat.ltb_ge; lia).
    rewrite H1; reflexivity.
Qed.

(** A pyramid of masks: the first subtraction is refused. *)
Lemma createDoGPyramid_of_masks (gp : array3 Q) (levels : list Z) :
  2 <= List.length levels ->
  dtype3 gp = bool_ ->
  createDoGPyramid gp levels =
  Raise (Exc (if 2 <=? nlev gp then "TypeError" else "IndexError")
             "createDoGPyramid").
Proof.
  intros H2 Hd; unfold createDoGPyramid, range, len.
  replace (Z.to_nat (Z.of_nat (List.length levels) - 1))
    with (S (List.length levels - 2)) by lia.
  cbn [seq for_append]; unfold level; cbn [Nat.add].
  destruct (Nat.leb_spec 2 (nlev gp)) as [Hn|Hn].
  - replace (1 <? nlev gp) with true by (symmetry; apply Nat.ltb_lt; lia).
    replace (0 <? nlev gp) with true by (symmetry; apply Nat.ltb_lt; lia).
    unfold bind, np_subtract; cbn [dtype2]; rewrite Hd; reflexivity.
  - replace (1 <? nlev gp) with false by (symmetry; apply Nat.ltb_ge; lia).
    reflexivity.
Qed.

Lemma createDoGPyramid_prefix (gp : array3 Q) (levels : list Z) :
  2 <= List.length levels ->
  dtype3 gp <> bool_ ->
  List.length levels <= nlev gp ->
  createDoGPyramid gp levels =
  Ok (Array3 (dtype3 gp) (imH gp) (imW gp) (List.length levels - 1)
             (fun y x l =>
                at2 (nth l (map (DoG_level gp)
                                (seq 0 (List.length levels - 1)))
                         (DoG_level gp 0)) y x),
      map Z.of_nat (seq 0 (List.length levels - 1))).
Proof.
  intros H2 Hd Hle; unfold createDoGPyramid, range, len.
  replace (Z.to_nat (Z.of_nat (List.length levels) - 1))
    with (List.length levels - 1) by lia.
  rewrite DoG_loop_total by (assumption || lia); simpl bind.
  rewrite DoG_stack_total by lia; reflexivity.
Qed.

Lemma createDoGPyramid_inv (gp D : array3 Q) (levels DoG_levels : list Z) :
  createDoGPyramid gp levels = Ok (D, DoG_levels) ->
  2 <= List.length levels /\
  List.length levels <= nlev gp /\
  dtype3 gp <> bool_ /\
  dtype3 D = dtype3 gp /\
  shape3 D = (imH gp, imW gp, List.length levels - 1) /\
  DoG_levels = map Z.of_nat (seq 0 (List.length levels - 1)) /\
  forall j y x,
    j < List.length levels - 1 ->
    at3 D y x j = wrap (dtype3 gp) (at3 gp y x (j + 1) - at3 gp y x j)%Q.
Proof.
  intros Hrun.
  destruct (le_lt_dec (List.length levels) 1) as [H1|H1].
  { rewrite createDoGPyramid_short in Hrun by exact H1; discriminate. }
  assert (Hd : dtype3 gp <> bool_).
  { intros Hb; rewrite createDoGPyramid_of_masks in Hrun by (lia || exact Hb).
    discriminate. }
  destruct (le_lt_dec (List.length levels) (nlev gp)) as [Hle|Hlt].
  2: { rewrite createDoGPyramid_missing_level in Hrun by (assumption || lia).
       discriminate. }
  rewrite createDoGPyramid_prefix in Hrun by (assumption || lia).
  inversion Hrun; subst D DoG_levels; clear Hrun.
  repeat split; try lia; try assumption.
  intros j y x Hj; cbn [at3].
  rewrite nth_DoG_level by exact Hj; reflexivity.
Qed.

Lemma createDoGPyramid_nlev (gp D : array3 Q) (levels DoG_levels : list Z) :
  createDoGPyramid gp levels = Ok (D, DoG_levels) ->
  nlev D + 1 = List.length levels.
Proof.
  intros Hrun.
  destruct (createDoGPyramid_inv _ _ _ _ Hrun) as [H2 [_ [_ [_ [Hs _]]]]].
  unfold shape3 in Hs; inversion Hs; lia.
Qed.

(** X1: [createDoGPyramid] raises [ValueError] when [levels] has at most one
    entry.  With at least two entries it raises [IndexError] when the
    Gaussian pyramid has fewer levels than [levels] has entries, and
    [TypeError] on a pyramid of masks with two levels or more.  Otherwise
    it returns a pyramid of the dtype of the Gaussian pyramid that holds
    the [len(levels)-1] differences of the first [len(levels)] Gaussian
    levels, taken modulo 256 on 8-bit levels; further levels of the
    Gaussian pyramid are ignored. *)
Theorem createDoGPyramid_outcomes (gp : array3 Q) (levels : list Z) :
  (List.length levels <= 1 ->
   createDoGPyramid gp levels = Raise (Exc "ValueError" "createDoGPyramid")) /\
  (2 <= List.length levels -> dtype3 gp <> bool_ ->
   nlev gp < List.length levels ->
   createDoGPyramid gp levels = Raise (Exc "IndexError" "createDoGPyramid")) /\
  (2 <= List.length levels -> dtype3 gp = bool_ -> 2 <= nlev gp ->
   createDoGPyramid gp levels = Raise (Exc "TypeError" "createDoGPyramid")) /\
  (2 <= List.length levels -> dtype3 gp <> bool_ ->
   List.length levels <= nlev gp ->
   exists D DoG_levels,
     createDoGPyramid gp levels = Ok (D, DoG_levels) /\
     dtype3 D = dtype3 gp /\
     shape3 D = (imH gp, imW gp, List.length levels - 1) /\
     forall j y x,
       j < List.length levels - 1 ->
       let d := (at3 gp y x (j + 1) - at3 gp y x j)%Q in
       at3 D y x j = match dtype3 gp with
                     | uint8 => inject_Z (Qfloor d mod 256)
                     | _ => d
                     end).
Proof.
  split; [apply createDoGPyramid_short|].
  split; [apply createDoGPyramid_missing_level|].
  split.
  { intros H2 Hd Hn; rewrite createDoGPyramid_of_masks by assumption.
    replace (2 <=? nlev gp) with true by (symmetry; apply Nat.leb_le; exact Hn).
    reflexivity. }
  intros H2 Hd Hle.
  destruct (createDoGPyramid gp levels) as [[D DL]|e] eqn:Hrun.
  - exists D, DL; split; [reflexivity|].
    destruct (createDoGPyramid_inv _ _ _ _ Hrun)
      as [_ [_ [_ [HdD [Hs [_ Hat]]]]]].
    split; [exact HdD|]; split; [exact Hs|].
    intros j y x Hj d; rewrite (Hat j y x Hj); unfold wrap, d.
    destruct (dtype3 gp); [congruence | reflexivity | reflexivity].
  - rewrite createDoGPyramid_prefix in Hrun by assumption; discriminate.
Qed.

Lemma createDoGPyramid_outcomes_witness :
  createDoGPyramid flat_pyramid [0]%Z
  = Raise (Exc "ValueError" "createDoGPyramid") /\
  createDoGPyramid flat_pyramid [0; 1; 2; 3; 4]%Z
  = Raise (Exc "IndexError" "createDoGPyramid") /\
  createDoGPyramid (astype3 bool_ flat_pyramid) [0; 1; 2]%Z
  = Raise (Exc "TypeError" "createDoGPyramid") /\
  (exists D DoG_levels,
      createDoGPyramid flat_pyramid [0; 1; 2]%Z = Ok (D, DoG_levels) /\
      dtype3 D = float_ /\
      shape3 D = (4, 4, 2) /\
      forall j y x,
        j < 2 ->
        at3 D y x j =
        (at3 flat_pyramid y x (j + 1) - at3 flat_pyramid y x j)%Q) /\
  (exists D DoG_levels,
      createDoGPyramid fading_pyramid [0; 1]%Z = Ok (D, DoG_levels) /\
      dtype3 D = uint8 /\
      shape3 D = (1, 1, 1) /\
      forall j y x,
        j < 1 ->
        at3 D y x j =
        inject_Z (Qfloor (at3 fading_pyramid y x (j + 1) -
                          at3 fading_pyramid y x j) mod 256)).
Proof.
  split.
  { apply (proj1 (createDoGPyramid_outcomes flat_pyramid [0]%Z)).
    simpl; lia. }
  split.
  { apply (proj1 (proj2 (createDoGPyramid_outcomes
                           flat_pyramid [0; 1; 2; 3; 4]%Z)));
      simpl; (lia || discriminate). }
  split.
  { apply (proj1 (proj2 (proj2 (createDoGPyramid_outcomes
                                  (astype3 bool_ flat_pyramid)
                                  [0; 1; 2]%Z))));
      simpl; (lia || reflexivity). }
  split.
  - apply (proj2 (proj2 (proj2 (createDoGPyramid_outcomes
                                  flat_pyramid [0; 1; 2]%Z))));
      simpl; (lia || discriminate).
  - apply (proj2 (proj2 (proj2 (createDoGPyramid_outcomes
                                  fading_pyramid [0; 1]%Z))));
      simpl; (lia || discriminate).
Defined.

(** X2: when [createDoGPyramid] returns, its second output lists exactly the
    indices of the levels of its first output: it is [[0, ..., n-1]] for a
    DoG pyramid of [n] levels, and [n = len(levels) - 1]. *)
Theorem createDoGPyramid_levels_index (gp D : array3 Q)
    (levels DoG_levels : list Z) :
  createDoGPyramid gp levels = Ok (D, DoG_levels) ->
  DoG_levels = map Z.of_nat (seq 0 (nlev D)) /\
  List.length DoG_levels = nlev D /\
  nlev D + 1 = List.length levels.
Proof.
  intros Hrun.
  destruct (createDoGPyramid_inv _ _ _ _ Hrun)
    as [H2 [_ [_ [_ [Hs [HDL _]]]]]].
  unfold shape3 in Hs; inversion Hs as [[HH HW Hn]].
  rewrite Hn; subst DoG_levels.
  rewrite length_map, length_seq; repeat split; lia.
Qed.

Lemma createDoGPyramid_levels_index_witness :
  exists D,
    createDoGPyramid flat_pyramid [5; 7; 9]%Z = Ok (D, [0; 1]%Z) /\
    [0; 1]%Z = map Z.of_nat (seq 0 (nlev D)) /\
    List.length [0; 1]%Z = nlev D /\
    nlev D + 1 = List.length [5; 7; 9]%Z.
Proof.
  destruct (createDoGPyramid flat_pyramid [5; 7; 9]%Z) as [[D DL]|e] eqn:Hrun;
    [|vm_compute in Hrun; discriminate Hrun].
  assert (HDL : DL = [0; 1]%Z)
    by (rewrite (createDoGPyramid_levels _ _ _ _ Hrun); reflexivity).
  subst DL; exists D; split; [reflexivity|].
  exact (createDoGPyramid_levels_index _ _ _ _ Hrun).
Defined.

(** ** The rescaling of the image *)

(** X4: [createGaussianPyramid] divides by 255 every pixel of an image that
    has a pixel above 10, so that an image with values in [0, 255] is
    blurred with values in [0, 1]; an image with no pixel above 10 (a dark
    8-bit image as well) is blurred as it is. *)
Theorem rescale_range (im im' : array2 Q) :
  rescale im = Ok im' ->
  shape2 im' = shape2 im /\
  ((forall y x, y < rows im -> x < cols im -> (at2 im y x <= 10)%Q) ->
   im' = im) /\
  ((exists y x, y < rows im /\ x < cols im /\ (10 < at2 im y x)%Q) ->
   (forall y x, at2 im' y x = (at2 im y x / 255)%Q) /\
   ((forall y x, y < rows im -> x < cols im ->
                 (0 <= at2 im y x <= 255)%Q) ->
    forall y x, y < rows im -> x < cols im -> (0 <= at2 im' y x <= 1)%Q)).
Proof.
  unfold rescale.
  destruct (np_amax "createGaussianPyramid" im) as [m|e] eqn:Hm;
    [|discriminate].
  simpl; intros H; inversion H; subst im'; clear H.
  destruct (np_amax_spec _ _ _ Hm) as [Hub [y0 [x0 [Hy0 [Hx0 Hmax]]]]].
  split; [destruct (negb (Qle_bool m 10)); reflexivity|].
  split.
  - intros Hall.
    assert (Hle : Qle_bool m 10 = true)
      by (apply Qle_bool_iff; rewrite Hmax; apply Hall; assumption).
    rewrite Hle; reflexivity.
  - intros [y [x [Hy [Hx Hgt]]]].
    assert (Hle : Qle_bool m 10 = false).
    { destruct (Qle_bool m 10) eqn:E; [|reflexivity].
      apply Qle_bool_iff in E; exfalso.
      apply (Qlt_not_le _ _ Hgt).
      apply Qle_trans with m; [apply Hub; assumption | exact E]. }
    rewrite Hle; cbn [negb float32_div255 at2]; split; [reflexivity|].
    intros Hbyte y1 x1 Hy1 Hx1; destruct (Hbyte y1 x1 Hy1 Hx1) as [Hlo Hhi].
    split.
    + apply Qle_shift_div_l; [reflexivity|].
      rewrite Qmult_0_l; exact Hlo.
    + apply Qle_shift_div_r; [reflexivity|].
      rewrite Qmult_1_l; exact Hhi.
Qed.

Lemma rescale_range_witness :
  rescale bytes2 = Ok (map2 (fun v => (v / 255)%Q) bytes2) /\
  rescale dark2 = Ok dark2 /\
  forall y x, y < rows bytes2 -> x < cols bytes2 ->
              (0 <= at2 (map2 (fun v => (v / 255)%Q) bytes2) y x <= 1)%Q.
Proof.
  assert (H1 : rescale bytes2 = Ok (map2 (fun v => (v / 255)%Q) bytes2))
    by reflexivity.
  assert (H2 : rescale dark2 = Ok dark2) by reflexivity.
  split; [exact H1|]; split; [exact H2|].
  destruct (rescale_range _ _ H1) as [_ [_ Hscaled]].
  destruct Hscaled as [_ Hrange].
  { exists 0, 1; repeat split; simpl; try lia; reflexivity. }
  apply Hrange.
  intros y x Hy Hx; simpl in Hy, Hx.
  destruct y as [|[|y]]; [| |lia]; (destruct x as [|[|x]]; [| |lia]);
    split; apply Qle_bool_iff; reflexivity.
Defined.


(** ** The levels of the Gaussian pyramid *)

(** X5: when [createGaussianPyramid] returns, the pyramid has the dtype,
    the height and the width of the rescaled gray image and [len(levels)]
    levels, and its level [l] holds the pixels of the blur of that image
    with the kernel size and the standard deviation computed for
    [levels[l]], that is [int(np.floor(3*sigma_*2) + 1)] and
    [sigma_ = sigma0 * k**levels[l]] in the arithmetic of Python, as an
    image of that dtype stores them. *)
Theorem createGaussianPyramid_levels_content pow cvt blur (im : image)
    (sigma0 k : number) (levels : list Z) (gp : array3 Q) :
  createGaussianPyramid pow cvt blur im sigma0 k levels = Ok gp ->
  exists g im',
    gray_of cvt im = Ok g /\
    rescale g = Ok im' /\
    dtype3 gp = dtype2 im' /\
    shape3 gp = (rows im', cols im', List.length levels) /\
    forall l,
      l < List.length levels ->
      exists size sigma_ px,
        blur_args pow sigma0 k (nth l levels 0%Z) = Ok (size, size, sigma_) /\
        blur im' (size, size) sigma_ = Some px /\
        forall y x, at3 gp y x l = saturate (dtype2 im') (px y x).
Proof.
  intros Hrun.
  destruct (createGaussianPyramid_inv _ _ _ _ _ _ _ _ Hrun)
    as [g [im' [Hg [Hr [_ [_ [Hd [Hs Hlev]]]]]]]].
  exists g, im'; repeat split; assumption.
Qed.

Lemma createGaussianPyramid_levels_content_witness :
  exists gp g im',
    createGaussianPyramid pow_int cvt_luma blur_copy gray3
                          (PyInt 1) (PyInt 1) default_levels = Ok gp /\
    gray_of cvt_luma gray3 = Ok g /\
    rescale g = Ok im' /\
    dtype3 gp = float_ /\
    shape3 gp = (3, 3, 6) /\
    exists px,
      blur_args pow_int (PyInt 1) (PyInt 1) 2 = Ok (7, 7, PyInt 1)%Z /\
      blur_copy im' (7, 7)%Z (PyInt 1) = Some px /\
      forall y x, at3 gp y x 3 = px y x.
Proof.
  destruct (createGaussianPyramid pow_int cvt_luma blur_copy gray3
              (PyInt 1) (PyInt 1) default_levels)
    as [gp|e] eqn:Hrun; [|vm_compute in Hrun; discriminate Hrun].
  destruct (createGaussianPyramid_levels_content _ _ _ _ _ _ _ _ Hrun)
    as [g [im' [Hg [Hr [Hd [Hs Hlev]]]]]].
  exists gp, g, im'.
  split; [reflexivity|]; split; [exact Hg|]; split; [exact Hr|].
  cbn [gray_of gray3] in Hg; inversion Hg; subst g.
  vm_compute in Hr; inversion Hr; subst im'.
  split; [exact Hd|]; split; [exact Hs|].
  destruct (Hlev 3) as [size [sigma_ [px [Ha [Hpx Hat]]]]]; [simpl; lia|].
  vm_compute in Ha; inversion Ha; subst size sigma_.
  exists px; split; [reflexivity|]; split; [exact Hpx | exact Hat].
Defined.

(** X6: [createGaussianPyramid] raises [ValueError] on a gray image of size
    zero (from [im.max()]) and on an empty [levels] sequence (from
    [np.stack]). *)
Theorem createGaussianPyramid_empty_input pow cvt blur (g : array2 Q)
    (sigma0 k : number) (levels : list Z) :
  rows g = 0 \/ cols g = 0 \/ levels = [] ->
  createGaussianPyramid pow cvt blur (Gray g) sigma0 k levels
  = Raise (Exc "ValueError" "createGaussianPyramid").
Proof.
  intros H; rewrite createGaussianPyramid_unfold; simpl gray_of; simpl bind.
  unfold rescale.
  destruct (Nat.eq_dec (rows g) 0) as [Hr|Hr];
    [rewrite np_amax_empty by auto; reflexivity|].
  destruct (Nat.eq_dec (cols g) 0) as [Hc|Hc];
    [rewrite np_amax_empty by auto; reflexivity|].
  destruct H as [H|[H|H]]; try contradiction; subst levels.
  destruct (np_amax_total "createGaussianPyramid" g) as [m Hm]; try lia.
  rewrite Hm; reflexivity.
Qed.

Lemma createGaussianPyramid_empty_input_witness :
  createGaussianPyramid pow_int cvt_luma blur_copy (Gray (of_rows []))
                        (PyInt 1) (PyInt 1) default_levels
  = Raise (Exc "ValueError" "createGaussianPyramid") /\
  createGaussianPyramid pow_int cvt_luma blur_copy gray3 (PyInt 1) (PyInt 1) []
  = Raise (Exc "ValueError" "createGaussianPyramid").
Proof.
  split.
  - apply createGaussianPyramid_empty_input; left; reflexivity.
  - apply (createGaussianPyramid_empty_input pow_int cvt_luma blur_copy
             (of_rows [[1 # 2; 1 # 2; 1 # 2];
                       [1 # 2; 1 # 2; 1 # 2];
                       [1 # 2; 1 # 2; 1 # 2]]%Q) (PyInt 1) (PyInt 1) []).
    right; right; reflexivity.
Defined.

(** X7: the Gaussian pyramid that [createGaussianPyramid] returns has the
    shape [(H, W, len(levels))] of the image: [cv2.cvtColor] and
    [cv2.GaussianBlur] keep the height and the width of their input. *)
Theorem createGaussianPyramid_shape pow cvt blur (im : image)
    (sigma0 k : number) (levels : list Z) (gp : array3 Q) :
  createGaussianPyramid pow cvt blur im sigma0 k levels = Ok gp ->
  shape3 gp = (fst (image_shape im), snd (image_shape im), List.length levels).
Proof.
  intros Hrun.
  destruct (createGaussianPyramid_inv _ _ _ _ _ _ _ _ Hrun)
    as [g [im' [Hg [Hr [_ [_ [_ [Hs _]]]]]]]].
  apply rescale_shape in Hr; apply gray_of_shape in Hg.
  rewrite Hs; unfold shape2 in Hr, Hg.
  rewrite <- Hg; inversion Hr; reflexivity.
Qed.

Lemma createGaussianPyramid_shape_witness :
  exists gp,
    createGaussianPyramid pow_int cvt_luma blur_copy gray3
                          (PyInt 1) (PyInt 1) default_levels = Ok gp /\
    shape3 gp = (3, 3, 6).
Proof.
  destruct (createGaussianPyramid pow_int cvt_luma blur_copy gray3
              (PyInt 1) (PyInt 1) default_levels)
    as [gp|e] eqn:Hrun; [|vm_compute in Hrun; discriminate Hrun].
  exists gp; split; [reflexivity|].
  exact (createGaussianPyramid_shape _ _ _ _ _ _ _ _ Hrun).
Defined.
(** ** What getLocalExtrema tests *)

Lemma near_refl (a : nat) : near a a.
Proof. unfold near; lia. Qed.

Lemma reflect_near (n i : nat) (d : Z) :
  i < n -> In d offsets3 -> near i (reflect n (Z.of_nat i + d)).
Proof.
  intros Hi Hd; unfold reflect, near.
  destruct (Z.ltb_spec (Z.of_nat i + d) 0);
    destruct (Z.leb_spec (Z.of_nat n) (Z.of_nat i + d));
    simpl in Hd; lia.
Qed.

Lemma reflect_reaches (n i i' : nat) :
  i < n -> i' < n -> near i i' ->
  exists d, In d offsets3 /\ reflect n (Z.of_nat i + d) = i'.
Proof.
  intros Hi Hi' Hn; unfold near in Hn.
  exists (Z.of_nat i' - Z.of_nat i)%Z; split.
  - unfold offsets3; simpl; lia.
  - unfold reflect.
    destruct (Z.ltb_spec (Z.of_nat i + (Z.of_nat i' - Z.of_nat i)) 0);
      destruct (Z.leb_spec (Z.of_nat n)
                           (Z.of_nat i + (Z.of_nat i' - Z.of_nat i)));
      lia.
Qed.

Lemma window3_In (a : array2 Q) (i j : nat) (v : Q) :
  i < rows a -> j < cols a ->
  (In v (window3 a i j) <->
   exists i' j', i' < rows a /\ j' < cols a /\ near i i' /\ near j j' /\
                 v = at2 a i' j').
Proof.
  intros Hi Hj; unfold window3; rewrite in_map_iff; split.
  - intros [[di dj] [Hv Hd]]; cbn [fst snd] in Hv.
    apply in_prod_iff in Hd; destruct Hd as [Hdi Hdj].
    exists (reflect (rows a) (Z.of_nat i + di)),
           (reflect (cols a) (Z.of_nat j + dj)).
    split; [apply reflect_lt; assumption|].
    split; [apply reflect_lt; assumption|].
    split; [apply reflect_near; assumption|].
    split; [apply reflect_near; assumption|].
    symmetry; exact Hv.
  - intros [i' [j' [Hi' [Hj' [Hni [Hnj Hv]]]]]].
    destruct (reflect_reaches (rows a) i i' Hi Hi' Hni) as [di [Hdi Ei]].
    destruct (reflect_reaches (cols a) j j' Hj Hj' Hnj) as [dj [Hdj Ej]].
    exists (di, dj); cbn [fst snd]; split.
    + rewrite Ei, Ej; symmetry; exact Hv.
    + apply in_prod_iff; split; assumption.
Qed.

Lemma maximum_filter_le (a : array2 Q) (i j : nat) (c : Q) :
  i < rows a -> j < cols a ->
  ((at2 (maximum_filter a) i j <= c)%Q <->
   forall i' j', i' < rows a -> j' < cols a -> near i i' -> near j j' ->
                 (at2 a i' j' <= c)%Q).
Proof.
  intros Hi Hj; cbn [maximum_filter at2]; split.
  - intros Hmax i' j' Hi' Hj' Hni Hnj.
    apply Qle_trans with (fold_left qmax (window3 a i j) (at2 a i j));
      [|exact Hmax].
    apply (proj2 (fold_qmax_ge (window3 a i j) (at2 a i j))).
    apply window3_In; try assumption.
    exists i', j'; repeat split; try assumption; apply Hni || apply Hnj.
  - intros Hall; apply fold_qmax_lub.
    + apply Hall; try assumption; apply near_refl.
    + intros v Hv; apply window3_In in Hv; try assumption.
      destruct Hv as [i' [j' [Hi' [Hj' [Hni [Hnj ->]]]]]].
      apply Hall; assumption.
Qed.

Lemma minimum_filter_ge (a : array2 Q) (i j : nat) (c : Q) :
  i < rows a -> j < cols a ->
  ((c <= at2 (minimum_filter a) i j)%Q <->
   forall i' j', i' < rows a -> j' < cols a -> near i i' -> near j j' ->
                 (c <= at2 a i' j')%Q).
Proof.
  intros Hi Hj; cbn [minimum_filter at2]; split.
  - intros Hmin i' j' Hi' Hj' Hni Hnj.
    apply Qle_trans with (fold_left qmin (window3 a i j) (at2 a i j));
      [exact Hmin|].
    apply (proj2 (fold_qmin_le (window3 a i j) (at2 a i j))).
    apply window3_In; try assumption.
    exists i', j'; repeat split; try assumption; apply Hni || apply Hnj.
  - intros Hall; apply fold_qmin_glb.
    + apply Hall; try assumption; apply near_refl.
    + intros v Hv; apply window3_In in Hv; try assumption.
      destruct Hv as [i' [j' [Hi' [Hj' [Hni [Hnj ->]]]]]].
      apply Hall; assumption.
Qed.

Lemma qmax_le_iff (a b c : Q) :
  (qmax a b <= c)%Q <-> (a <= c)%Q /\ (b <= c)%Q.
Proof.
  split.
  - intros H; split; eapply Qle_trans; try exact H;
      [apply qmax_ge_l | apply qmax_ge_r].
  - intros [Ha Hb]; destruct (qmax_cases a b) as [E|E]; rewrite E; assumption.
Qed.

Lemma qmin_ge_iff (a b c : Q) :
  (c <= qmin a b)%Q <-> (c <= a)%Q /\ (c <= b)%Q.
Proof.
  split.
  - intros H; split; eapply Qle_trans; try exact H;
      [apply qmin_le_l | apply qmin_le_r].
  - intros [Ha Hb]; destruct (qmin_cases a b) as [E|E]; rewrite E; assumption.
Qed.

Lemma local_extrema_at (D : array3 Q) (l i j : nat) :
  at2 (local_extrema D l) i j =
  qge (at3 D (i + 1) (j + 1) l)
      (qmax (at2 (maximum_filter (interior D l)) i j)
            (at2 (maximum_filter
                    (zip2 qmax (interior D (l - 1)) (interior D (l + 1))))
                 i j))
  || qle (at3 D (i + 1) (j + 1) l)
         (qmin (at2 (minimum_filter (interior D l)) i j)
               (at2 (minimum_filter
                       (zip2 qmin (interior D (l - 1)) (interior D (l + 1))))
                    i j)).
Proof. reflexivity. Qed.

(** The value at [(i, j)] of the region of level [l] is at least (at most)
    every value of the regions of the levels [l-1], [l] and [l+1] that is
    one step away at most. *)
Lemma region_max_iff (D : array3 Q) (l i j : nat) (c : Q) :
  i < imH D - 2 -> j < imW D - 2 ->
  ((qmax (at2 (maximum_filter (interior D l)) i j)
         (at2 (maximum_filter
                 (zip2 qmax (interior D (l - 1)) (interior D (l + 1))))
              i j) <= c)%Q <->
   forall i' j', i' < imH D - 2 -> j' < imW D - 2 -> near i i' -> near j j' ->
                 (at3 D (i' + 1) (j' + 1) (l - 1) <= c)%Q /\
                 (at3 D (i' + 1) (j' + 1) l <= c)%Q /\
                 (at3 D (i' + 1) (j' + 1) (l + 1) <= c)%Q).
Proof.
  intros Hi Hj.
  rewrite qmax_le_iff, !maximum_filter_le by assumption.
  cbn [interior zip2 rows cols at2]; split.
  - intros [Hs Hc] i' j' Hi' Hj' Hni Hnj.
    specialize (Hs i' j' Hi' Hj' Hni Hnj).
    specialize (Hc i' j' Hi' Hj' Hni Hnj).
    apply qmax_le_iff in Hc; tauto.
  - intros Hall; split; intros i' j' Hi' Hj' Hni Hnj;
      destruct (Hall i' j' Hi' Hj' Hni Hnj) as [Hlo [Hmid Hhi]];
      [exact Hmid | apply qmax_le_iff; split; assumption].
Qed.

Lemma region_min_iff (D : array3 Q) (l i j : nat) (c : Q) :
  i < imH D - 2 -> j < imW D - 2 ->
  ((c <= qmin (at2 (minimum_filter (interior D l)) i j)
              (at2 (minimum_filter
                      (zip2 qmin (interior D (l - 1)) (interior D (l + 1))))
                   i j))%Q <->
   forall i' j', i' < imH D - 2 -> j' < imW D - 2 -> near i i' -> near j j' ->
                 (c <= at3 D (i' + 1) (j' + 1) (l - 1))%Q /\
                 (c <= at3 D (i' + 1) (j' + 1) l)%Q /\
                 (c <= at3 D (i' + 1) (j' + 1) (l + 1))%Q).
Proof.
  intros Hi Hj.
  rewrite qmin_ge_iff, !minimum_filter_ge by assumption.
  cbn [interior zip2 rows cols at2]; split.
  - intros [Hs Hc] i' j' Hi' Hj' Hni Hnj.
    specialize (Hs i' j' Hi' Hj' Hni Hnj).
    specialize (Hc i' j' Hi' Hj' Hni Hnj).
    apply qmin_ge_iff in Hc; tauto.
  - intros Hall; split; intros i' j' Hi' Hj' Hni Hnj;
      destruct (Hall i' j' Hi' Hj' Hni Hnj) as [Hlo [Hmid Hhi]];
      [exact Hmid | apply qmin_ge_iff; split; assumption].
Qed.

Lemma neighbour3_region (D : array3 Q) (x y l : nat) (P : Q -> Prop) :
  1 <= x -> 1 <= y -> 1 <= l ->
  ((forall i' j', i' < imH D - 2 -> j' < imW D - 2 ->
                  near (y - 1) i' -> near (x - 1) j' ->
                  P (at3 D (i' + 1) (j' + 1) (l - 1)) /\
                  P (at3 D (i' + 1) (j' + 1) l) /\
                  P (at3 D (i' + 1) (j' + 1) (l + 1))) <->
   (forall x' y' l', neighbour3 D x y l x' y' l' -> P (at3 D y' x' l'))).
Proof.
  intros Hx Hy Hl; split.
  - intros Hall x' y' l' [Hx1 [Hx2 [Hy1 [Hy2 [Hnx [Hny Hnl]]]]]].
    unfold near in Hnx, Hny, Hnl.
    destruct (Hall (y' - 1) (x' - 1)) as [Hlo [Hmid Hhi]];
      try (unfold near; lia).
    replace (y' - 1 + 1) with y' in * by lia.
    replace (x' - 1 + 1) with x' in * by lia.
    assert (Hc : l' = l - 1 \/ l' = l \/ l' = l + 1) by lia.
    destruct Hc as [-> | [-> | ->]]; assumption.
  - intros Hall i' j' Hi' Hj' Hni Hnj; unfold near in Hni, Hnj.
    repeat split; apply Hall; unfold neighbour3, near; lia.
Qed.

Lemma getLocalExtrema_keypoint_iff (A : Type) (D : array3 Q)
    (DoG_levels : list Z) (pc : array3 A) (th th_r : Q)
    (kps : list keypoint) (x y l : nat) :
  getLocalExtrema D DoG_levels pc th th_r = Ok kps ->
  (In (x, y, l) kps <->
   (1 <= l /\ l + 1 < nlev D) /\
   (1 <= x /\ x + 1 < imW D) /\
   (1 <= y /\ y + 1 < imH D) /\
   (th <= Qabs (at3 D y x l))%Q /\
   ((forall x' y' l', neighbour3 D x y l x' y' l' ->
                      (at3 D y' x' l' <= at3 D y x l)%Q) \/
    (forall x' y' l', neighbour3 D x y l x' y' l' ->
                      (at3 D y x l <= at3 D y' x' l')%Q))).
Proof.
  intros Hrun.
  rewrite (getLocalExtrema_In _ _ _ _ _ _ _ (x, y, l) Hrun).
  split.
  - intros [l0 [Hl1 [Hl2 Hk]]].
    apply level_rows_In in Hk.
    destruct Hk as [Hl [Hx [Hy [Hw [Hh Hm]]]]]; subst l0.
    rewrite is_extrema_at, local_extrema_at in Hm.
    replace (y - 1 + 1) with y in Hm by lia.
    replace (x - 1 + 1) with x in Hm by lia.
    apply andb_true_iff in Hm; destruct Hm as [Hext Hc].
    apply qge_true in Hc.
    assert (Hi : y - 1 < imH D - 2) by lia.
    assert (Hj : x - 1 < imW D - 2) by lia.
    repeat split; try lia; try exact Hc.
    apply orb_true_iff in Hext; destruct Hext as [Hmax|Hmin].
    + left; apply qge_true in Hmax.
      pose proof (proj1 (region_max_iff D l _ _ _ Hi Hj) Hmax) as Hall.
      apply (neighbour3_region D x y l (fun v => (v <= at3 D y x l)%Q));
        assumption.
    + right; apply Qle_bool_iff in Hmin.
      pose proof (proj1 (region_min_iff D l _ _ _ Hi Hj) Hmin) as Hall.
      apply (neighbour3_region D x y l (fun v => (at3 D y x l <= v)%Q));
        assumption.
  - intros [[Hl1 Hl2] [[Hx1 Hx2] [[Hy1 Hy2] [Hc Hext]]]].
    exists l; split; [exact Hl1|]; split; [exact Hl2|].
    apply level_rows_In.
    repeat split; try lia.
    rewrite is_extrema_at, local_extrema_at.
    replace (y - 1 + 1) with y by lia.
    replace (x - 1 + 1) with x by lia.
    assert (Hi : y - 1 < imH D - 2) by lia.
    assert (Hj : x - 1 < imW D - 2) by lia.
    apply andb_true_iff; split; [|apply qge_true; exact Hc].
    apply orb_true_iff; destruct Hext as [Hmax|Hmin].
    + left; apply qge_true.
      apply (proj2 (region_max_iff D l _ _ _ Hi Hj)).
      apply (neighbour3_region D x y l (fun v => (v <= at3 D y x l)%Q));
        assumption.
    + right; apply Qle_bool_iff.
      apply (proj2 (region_min_iff D l _ _ _ Hi Hj)).
      apply (neighbour3_region D x y l (fun v => (at3 D y x l <= v)%Q));
        assumption.
Qed.

(** X8: every keypoint [(x, y, l)] returned by [getLocalExtrema] is an
    extremum of the searched region in space and scale: its DoG value is at
    least, or at most, every value of the levels [l-1], [l] and [l+1] at the
    pixels of the region (the image without its border of one pixel) that
    are one step away at most. *)
Theorem getLocalExtrema_sound (D : array3 Q) (DoG_levels : list Z)
    (pc : array3 Q) (th_contrast th_r : Q) (kps : list keypoint)
    (x y l : nat) :
  getLocalExtrema D DoG_levels pc th_contrast th_r = Ok kps ->
  In (x, y, l) kps ->
  (forall x' y' l', neighbour3 D x y l x' y' l' ->
                    (at3 D y' x' l' <= at3 D y x l)%Q) \/
  (forall x' y' l', neighbour3 D x y l x' y' l' ->
                    (at3 D y x l <= at3 D y' x' l')%Q).
Proof.
  intros Hrun Hin.
  apply (getLocalExtrema_keypoint_iff _ _ _ _ _ _ _ x y l Hrun) in Hin.
  tauto.
Qed.

Lemma peak_keypoints :
  getLocalExtrema peak_pyramid [0; 1; 2]%Z peak_pyramid
                  default_th_contrast default_th_r = Ok [(1, 1, 1)].
Proof. vm_compute; reflexivity. Qed.

Lemma getLocalExtrema_sound_witness :
  (forall x' y' l', neighbour3 peak_pyramid 1 1 1 x' y' l' ->
                    (at3 peak_pyramid y' x' l' <= at3 peak_pyramid 1 1 1)%Q) \/
  (forall x' y' l', neighbour3 peak_pyramid 1 1 1 x' y' l' ->
                    (at3 peak_pyramid 1 1 1 <= at3 peak_pyramid y' x' l')%Q).
Proof.
  apply (getLocalExtrema_sound peak_pyramid [0; 1; 2]%Z peak_pyramid
           default_th_contrast default_th_r [(1, 1, 1)] 1 1 1 peak_keypoints).
  left; reflexivity.
Defined.

(** X9: conversely, [getLocalExtrema] returns every pixel [(x, y)] of the
    searched region of every level [l] with both scale neighbours whose
    value passes the contrast threshold and is at least, or at most, every
    value of the levels [l-1], [l] and [l+1] at the pixels of the region
    one step away at most. *)
Theorem getLocalExtrema_complete (D : array3 Q) (DoG_levels : list Z)
    (pc : array3 Q) (th_contrast th_r : Q) (kps : list keypoint)
    (x y l : nat) :
  getLocalExtrema D DoG_levels pc th_contrast th_r = Ok kps ->
  1 <= l -> l + 1 < nlev D ->
  1 <= x -> x + 1 < imW D ->
  1 <= y -> y + 1 < imH D ->
  (th_contrast <= Qabs (at3 D y x l))%Q ->
  (forall x' y' l', neighbour3 D x y l x' y' l' ->
                    (at3 D y' x' l' <= at3 D y x l)%Q) \/
  (forall x' y' l', neighbour3 D x y l x' y' l' ->
                    (at3 D y x l <= at3 D y' x' l')%Q) ->
  In (x, y, l) kps.
Proof.
  intros Hrun Hl1 Hl2 Hx1 Hx2 Hy1 Hy2 Hc Hext.
  apply (getLocalExtrema_keypoint_iff _ _ _ _ _ _ _ x y l Hrun).
  repeat split; assumption.
Qed.

Lemma peak_is_minimum_at_2_2 :
  forall x' y' l', neighbour3 peak_pyramid 2 2 1 x' y' l' ->
                   (at3 peak_pyramid 2 2 1 <= at3 peak_pyramid y' x' l')%Q.
Proof.
  intros x' y' l' [Hx1 [Hx2 [Hy1 [Hy2 [Hnx [Hny Hnl]]]]]].
  simpl in Hx2, Hy2; unfold near in *.
  assert (Hx : x' = 1 \/ x' = 2) by lia.
  assert (Hy : y' = 1 \/ y' = 2) by lia.
  assert (Hl : l' = 0 \/ l' = 1 \/ l' = 2) by lia.
  destruct Hx as [-> | ->]; destruct Hy as [-> | ->];
    destruct Hl as [-> | [-> | ->]]; apply Qle_bool_iff; reflexivity.
Qed.

Lemma getLocalExtrema_complete_witness :
  getLocalExtrema peak_pyramid [0; 1; 2]%Z peak_pyramid 0 default_th_r
  = Ok [(1, 1, 1); (2, 1, 1); (1, 2, 1); (2, 2, 1)] /\
  In (2, 2, 1) [(1, 1, 1); (2, 1, 1); (1, 2, 1); (2, 2, 1)].
Proof.
  assert (Hrun : getLocalExtrema peak_pyramid [0; 1; 2]%Z peak_pyramid 0
                                 default_th_r
                 = Ok [(1, 1, 1); (2, 1, 1); (1, 2, 1); (2, 2, 1)])
    by (vm_compute; reflexivity).
  split; [exact Hrun|].
  apply (getLocalExtrema_complete peak_pyramid [0; 1; 2]%Z peak_pyramid 0
           default_th_r _ 2 2 1 Hrun); try (simpl; lia).
  - apply Qle_bool_iff; reflexivity.
  - right; exact peak_is_minimum_at_2_2.
Defined.

(** ** The list of keypoints *)

Lemma NoDup_map_injective (A B : Type) (f : A -> B) (l : list A) :
  (forall a b, f a = f b -> a = b) -> NoDup l -> NoDup (map f l).
Proof.
  intros Hinj Hl; induction Hl as [|a l Ha Hl IH]; simpl; constructor.
  - rewrite in_map_iff; intros [b [Hb Hin]].
    apply Hinj in Hb; subst b; contradiction.
  - exact IH.
Qed.

Lemma NoDup_list_prod (A B : Type) (l : list A) (l' : list B) :
  NoDup l -> NoDup l' -> NoDup (list_prod l l').
Proof.
  intros Hl Hl'; induction Hl as [|a l Ha Hl IH]; simpl; [constructor|].
  apply NoDup_app.
  - apply NoDup_map_injective; [|exact Hl'].
    intros b b' H; inversion H; reflexivity.
  - exact IH.
  - intros [a' b] H1 H2.
    apply in_map_iff in H1; destruct H1 as [b' [Hb' _]].
    inversion Hb'; subst a' b'.
    apply in_prod_iff in H2; destruct H2 as [H2 _]; contradiction.
Qed.

Lemma level_rows_NoDup (D : array3 Q) (th : Q) (l : nat) :
  NoDup (level_rows D th l).
Proof.
  unfold level_rows, np_where.
  apply NoDup_map_injective.
  - intros [i j] [i' j'] H; cbn [fst snd] in H; inversion H.
    f_equal; lia.
  - apply NoDup_filter, NoDup_list_prod; apply seq_NoDup.
Qed.

Lemma level_rows_level (D : array3 Q) (th : Q) (l : nat) (k : keypoint) :
  In k (level_rows D th l) -> snd k = l.
Proof.
  destruct k as [[x y] l']; intros H.
  apply level_rows_In in H; destruct H as [H _]; exact H.
Qed.

Lemma concat_levels_NoDup (f : nat -> list keypoint) (ls : list nat) :
  NoDup ls ->
  (forall l, NoDup (f l)) ->
  (forall l k, In k (f l) -> snd k = l) ->
  NoDup (List.concat (map f ls)).
Proof.
  intros Hls Hf Hlev; induction Hls as [|l ls Hl Hls IH]; simpl;
    [constructor|].
  apply NoDup_app; [apply Hf | exact IH |].
  intros k Hk Hk'; apply in_concat in Hk'.
  destruct Hk' as [ks [Hks Hin]].
  apply in_map_iff in Hks; destruct Hks as [l' [<- Hl']].
  apply Hlev in Hk; apply Hlev in Hin; congruence.
Qed.

Lemma getLocalExtrema_ok (A : Type) (D : array3 Q) (DoG_levels : list Z)
    (pc : array3 A) (th th_r : Q) :
  3 <= nlev D -> nlev D <= 257 ->
  getLocalExtrema D DoG_levels pc th th_r =
  Ok (List.concat (map (level_rows D th) (seq 1 (nlev D - 2)))).
Proof.
  intros Hn Hm; rewrite getLocalExtrema_unfold.
  replace (forallb (fun l => l <=? 255) (seq 1 (nlev D - 2))) with true.
  - replace (nlev D - 2) with (S (nlev D - 3)) by lia; reflexivity.
  - symmetry; apply forallb_forall; intros l Hl.
    apply in_seq in Hl; apply Nat.leb_le; lia.
Qed.

Lemma getLocalExtrema_overflow (A : Type) (D : array3 Q)
    (DoG_levels : list Z) (pc : array3 A) (th th_r : Q) :
  258 <= nlev D ->
  getLocalExtrema D DoG_levels pc th th_r =
  Raise (Exc "OverflowError" "getLocalExtrema").
Proof.
  intros Hn; rewrite getLocalExtrema_unfold.
  destruct (forallb (fun l => l <=? 255) (seq 1 (nlev D - 2))) eqn:E;
    [|reflexivity].
  rewrite forallb_forall in E.
  assert (H : (256 <=? 255) = true) by (apply E; apply in_seq; lia).
  discriminate H.
Qed.

(** X10: the list returned by [getLocalExtrema] has no duplicates: a pixel
    of a level is reported at most once. *)
Theorem getLocalExtrema_NoDup (D : array3 Q) (DoG_levels : list Z)
    (pc : array3 Q) (th_contrast th_r : Q) (kps : list keypoint) :
  getLocalExtrema D DoG_levels pc th_contrast th_r = Ok kps ->
  NoDup kps.
Proof.
  intros Hrun; apply getLocalExtrema_ok_inv in Hrun.
  destruct Hrun as [_ ->].
  apply concat_levels_NoDup.
  - apply seq_NoDup.
  - intros l; apply level_rows_NoDup.
  - intros l k; apply level_rows_level.
Qed.

Lemma getLocalExtrema_NoDup_witness :
  NoDup [(1, 1, 1); (2, 1, 1); (1, 2, 1); (2, 2, 1)].
Proof.
  apply (getLocalExtrema_NoDup peak_pyramid [0; 1; 2]%Z peak_pyramid 0
           default_th_r).
  vm_compute; reflexivity.
Defined.

Lemma level_rows_length (D : array3 Q) (th : Q) (l : nat) :
  List.length (level_rows D th l) <= (imH D - 2) * (imW D - 2).
Proof.
  unfold level_rows, np_where; rewrite length_map.
  destruct (is_extrema_shape D th l) as [Hr Hc]; rewrite Hr, Hc.
  eapply Nat.le_trans; [apply filter_length_le|].
  rewrite length_prod, !length_seq; lia.
Qed.

Lemma concat_map_length_bound (A B : Type) (f : A -> list B) (ls : list A)
    (n : nat) :
  (forall a, List.length (f a) <= n) ->
  List.length (List.concat (map f ls)) <= List.length ls * n.
Proof.
  intros Hf; induction ls as [|a ls IH]; simpl; [lia|].
  rewrite length_app; specialize (Hf a); lia.
Qed.

(** X11: [getLocalExtrema] returns at most [(L-2) (H-2) (W-2)] keypoints on
    a DoG pyramid of shape [(H, W, L)]. *)
Theorem getLocalExtrema_count (D : array3 Q) (DoG_levels : list Z)
    (pc : array3 Q) (th_contrast th_r : Q) (kps : list keypoint) :
  getLocalExtrema D DoG_levels pc th_contrast th_r = Ok kps ->
  List.length kps <= (nlev D - 2) * ((imH D - 2) * (imW D - 2)).
Proof.
  intros Hrun; apply getLocalExtrema_ok_inv in Hrun.
  destruct Hrun as [_ ->].
  eapply Nat.le_trans;
    [apply concat_map_length_bound; intros l; apply level_rows_length|].
  rewrite length_seq; lia.
Qed.

Lemma getLocalExtrema_count_witness :
  List.length [(1, 1, 1); (2, 1, 1); (1, 2, 1); (2, 2, 1)]
  <= (3 - 2) * ((4 - 2) * (4 - 2)).
Proof.
  apply (getLocalExtrema_count peak_pyramid [0; 1; 2]%Z peak_pyramid 0
           default_th_r).
  vm_compute; reflexivity.
Defined.

Lemma filter_none (A : Type) (f : A -> bool) (l : list A) :
  (forall a, In a l -> f a = false) -> filter f l = [].
Proof.
  induction l as [|a l IH]; intros H; simpl; [reflexivity|].
  rewrite (H a (or_introl eq_refl)); apply IH.
  intros b Hb; apply H; right; exact Hb.
Qed.

Lemma concat_map_nil (A B : Type) (f : A -> list B) (ls : list A) :
  (forall a, In a ls -> f a = []) -> List.concat (map f ls) = [].
Proof.
  induction ls as [|a ls IH]; intros H; simpl; [reflexivity|].
  rewrite (H a (or_introl eq_refl)); simpl; apply IH.
  intros b Hb; apply H; right; exact Hb.
Qed.

Lemma level_rows_low_contrast (D : array3 Q) (th : Q) (l : nat) :
  (forall y x, 1 <= y -> y + 1 < imH D -> 1 <= x -> x + 1 < imW D ->
               (Qabs (at3 D y x l) < th)%Q) ->
  level_rows D th l = [].
Proof.
  intros Hlow; unfold level_rows, np_where.
  rewrite filter_none; [reflexivity|].
  intros [i j] Hij; cbn [fst snd].
  destruct (is_extrema_shape D th l) as [Hr Hc]; rewrite Hr, Hc in Hij.
  apply in_prod_iff in Hij; destruct Hij as [Hi Hj].
  apply in_seq in Hi; apply in_seq in Hj.
  rewrite is_extrema_at.
  assert (Hc' : qge (Qabs (at3 D (i + 1) (j + 1) l)) th = false).
  { destruct (qge (Qabs (at3 D (i + 1) (j + 1) l)) th) eqn:E; [|reflexivity].
    apply qge_true in E; exfalso.
    apply (Qlt_not_le _ _ (Hlow (i + 1) (j + 1) ltac:(lia) ltac:(lia)
                                ltac:(lia) ltac:(lia))).
    exact E. }
  rewrite Hc'; apply andb_false_r.
Qed.

(** X12: [getLocalExtrema] raises [ValueError] on a DoG pyramid of at most
    two levels and [OverflowError] on one of 258 levels or more, where the
    level 256 does not fit the [uint8] column of the levels.  On a pyramid
    of 3 to 257 levels it returns, and it returns no keypoint when every
    pixel off the border of every level is below the contrast threshold. *)
Theorem getLocalExtrema_outcomes (D : array3 Q) (DoG_levels : list Z)
    (pc : array3 Q) (th_contrast th_r : Q) :
  (nlev D <= 2 ->
   getLocalExtrema D DoG_levels pc th_contrast th_r
   = Raise (Exc "ValueError" "getLocalExtrema")) /\
  (258 <= nlev D ->
   getLocalExtrema D DoG_levels pc th_contrast th_r
   = Raise (Exc "OverflowError" "getLocalExtrema")) /\
  (3 <= nlev D -> nlev D <= 257 ->
   returns (getLocalExtrema D DoG_levels pc th_contrast th_r)) /\
  (3 <= nlev D -> nlev D <= 257 ->
   (forall y x l, 1 <= y -> y + 1 < imH D -> 1 <= x -> x + 1 < imW D ->
                  (Qabs (at3 D y x l) < th_contrast)%Q) ->
   getLocalExtrema D DoG_levels pc th_contrast th_r = Ok []).
Proof.
  split; [apply getLocalExtrema_two_levels|].
  split; [apply getLocalExtrema_overflow|].
  split.
  - intros Hn Hm; rewrite getLocalExtrema_ok by assumption.
    eexists; reflexivity.
  - intros Hn Hm Hlow; rewrite getLocalExtrema_ok by assumption.
    f_equal; apply concat_map_nil.
    intros l _; apply level_rows_low_contrast.
    intros i j Hi Hj; apply Hlow; lia.
Qed.

Lemma getLocalExtrema_outcomes_witness :
  getLocalExtrema (of_levels [flat4 0; flat4 0]%Q) [0; 1]%Z peak_pyramid
                  default_th_contrast default_th_r
  = Raise (Exc "ValueError" "getLocalExtrema") /\
  getLocalExtrema tall_pyramid [] peak_pyramid
                  default_th_contrast default_th_r
  = Raise (Exc "OverflowError" "getLocalExtrema") /\
  returns (getLocalExtrema peak_pyramid [0; 1; 2]%Z peak_pyramid
                           default_th_contrast default_th_r) /\
  getLocalExtrema peak_pyramid [0; 1; 2]%Z peak_pyramid 1 default_th_r
  = Ok [].
Proof.
  pose proof (getLocalExtrema_outcomes (of_levels [flat4 0; flat4 0]%Q)
                [0; 1]%Z peak_pyramid default_th_contrast default_th_r)
    as [H2 _].
  pose proof (getLocalExtrema_outcomes tall_pyramid [] peak_pyramid
                default_th_contrast default_th_r) as [_ [Hover _]].
  pose proof (getLocalExtrema_outcomes peak_pyramid [0; 1; 2]%Z peak_pyramid
                default_th_contrast default_th_r) as [_ [_ [Hret _]]].
  pose proof (getLocalExtrema_outcomes peak_pyramid [0; 1; 2]%Z peak_pyramid
                1 default_th_r) as [_ [_ [_ Hnone]]].
  split; [apply H2; simpl; lia|].
  split; [apply Hover; simpl; lia|].
  split; [apply Hret; simpl; lia|].
  apply Hnone; try (simpl; lia).
  intros y x l Hy1 Hy2 Hx1 Hx2; simpl in Hy2, Hx2.
  assert (Hy : y = 1 \/ y = 2) by lia.
  assert (Hx : x = 1 \/ x = 2) by lia.
  destruct Hy; destruct Hx; subst;
    (destruct l as [|[|[|l]]]; [reflexivity ..|destruct l; reflexivity]).
Defined.

(** ** The pipeline *)

Lemma DoGdetector_inv pow cvt blur sobel (im : image) (sigma0 k : number)
    (levels : list Z) (th th_r : Q) (kps : list keypoint) (gp : array3 Q) :
  DoGdetector pow cvt blur sobel im sigma0 k levels th th_r = Ok (kps, gp) ->
  exists D DoG_levels pc,
    createGaussianPyramid pow cvt blur im sigma0 k levels = Ok gp /\
    createDoGPyramid gp levels = Ok (D, DoG_levels) /\
    computePrincipalCurvature sobel D = Ok pc /\
    getLocalExtrema D DoG_levels pc th th_r = Ok kps.
Proof.
  unfold DoGdetector.
  destruct (createGaussianPyramid pow cvt blur im sigma0 k levels) as [gp0|e];
    simpl; [|discriminate].
  destruct (createDoGPyramid gp0 levels) as [[D DL]|e] eqn:Hd; simpl;
    [|discriminate].
  destruct (computePrincipalCurvature sobel D) as [pc|e] eqn:Hpc; simpl;
    [|discriminate].
  destruct (getLocalExtrema D DL pc th th_r) as [ks|e] eqn:Hx; simpl;
    [|discriminate].
  intros H; inversion H; subst ks gp0.
  exists D, DL, pc; repeat split; assumption.
Qed.

(** X13: with fewer than four entries in [levels], [DoGdetector] returns no
    result, whatever the image and the other parameters. *)
Theorem DoGdetector_needs_four_levels pow cvt blur sobel (im : image)
    (sigma0 k : number) (levels : list Z) (th_contrast th_r : Q) :
  List.length levels < 4 ->
  ~ returns (DoGdetector pow cvt blur sobel im sigma0 k levels
                         th_contrast th_r).
Proof.
  intros HL [[kps gp] Hrun].
  apply DoGdetector_inv in Hrun; destruct Hrun as [D [DL [pc [_ [Hd [_ Hx]]]]]].
  pose proof (createDoGPyramid_nlev _ _ _ _ Hd) as Hn.
  apply getLocalExtrema_ok_inv in Hx; destruct Hx as [H3 _]; lia.
Qed.

Lemma DoGdetector_needs_four_levels_witness :
  ~ returns (DoGdetector pow_int cvt_luma blur_copy Sobel3 gray3
                         (PyInt 1) (PyInt 1) [0; 1]%Z
                         default_th_contrast default_th_r).
Proof.
  apply DoGdetector_needs_four_levels; simpl; lia.
Defined.

(** After the Gaussian pyramid the stages fail only in [getLocalExtrema]. *)
Lemma DoGdetector_after_pyramid pow cvt blur sobel (im : image)
    (sigma0 k : number) (levels : list Z) (th_contrast th_r : Q)
    (gp : array3 Q) :
  2 <= List.length levels ->
  createGaussianPyramid pow cvt blur im sigma0 k levels = Ok gp ->
  exists D DoG_levels pc,
    createDoGPyramid gp levels = Ok (D, DoG_levels) /\
    nlev D + 1 = List.length levels /\
    computePrincipalCurvature sobel D = Ok pc /\
    DoGdetector pow cvt blur sobel im sigma0 k levels th_contrast th_r =
    (kps <- getLocalExtrema D DoG_levels pc th_contrast th_r ;;
     Ok (kps, gp)).
Proof.
  intros HL Hg.
  pose proof (createGaussianPyramid_levels _ _ _ _ _ _ _ _ Hg) as Hn.
  destruct (createGaussianPyramid_accepted _ _ _ _ _ _ _ _ Hg)
    as [Href [Hd [Hh Hw]]].
  destruct (createDoGPyramid gp levels) as [[D DL]|e] eqn:HD.
  2: { rewrite createDoGPyramid_prefix in HD by (assumption || lia).
       discriminate. }
  pose proof (createDoGPyramid_nlev _ _ _ _ HD) as HnD.
  destruct (createDoGPyramid_inv _ _ _ _ HD) as [_ [_ [_ [HdD [Hs _]]]]].
  unfold shape3 in Hs; inversion Hs as [[HH HW HL']].
  destruct (Sobel_accepts_image D) as [_ Hok];
    [congruence | lia | lia |].
  destruct (computePrincipalCurvature sobel D) as [pc|e] eqn:Hpc;
    [|rewrite computePrincipalCurvature_unfold, Hok in Hpc; discriminate].
  exists D, DL, pc.
  split; [first [reflexivity | exact HD]|]; split; [exact HnD|].
  split; [first [reflexivity | exact Hpc]|].
  unfold DoGdetector; rewrite Hg; cbn [bind]; rewrite HD; cbn [bind fst snd].
  rewrite Hpc; reflexivity.
Qed.

(** X14: with 4 to 258 entries in [levels], no stage after the Gaussian
    pyramid fails: once [createGaussianPyramid] has returned a pyramid,
    [DoGdetector] returns that pyramid together with the keypoints of its
    DoG pyramid.  With 259 entries or more the DoG level 256 is searched
    and [getLocalExtrema] raises [OverflowError]. *)
Theorem DoGdetector_returns pow cvt blur sobel (im : image)
    (sigma0 k : number) (levels : list Z) (th_contrast th_r : Q)
    (gp : array3 Q) :
  4 <= List.length levels ->
  createGaussianPyramid pow cvt blur im sigma0 k levels = Ok gp ->
  (List.length levels <= 258 ->
   exists D DoG_levels pc kps,
     createDoGPyramid gp levels = Ok (D, DoG_levels) /\
     computePrincipalCurvature sobel D = Ok pc /\
     getLocalExtrema D DoG_levels pc th_contrast th_r = Ok kps /\
     DoGdetector pow cvt blur sobel im sigma0 k levels th_contrast th_r
     = Ok (kps, gp)) /\
  (259 <= List.length levels ->
   DoGdetector pow cvt blur sobel im sigma0 k levels th_contrast th_r
   = Raise (Exc "OverflowError" "getLocalExtrema")).
Proof.
  intros HL Hg.
  destruct (DoGdetector_after_pyramid pow cvt blur sobel im sigma0 k levels
              th_contrast th_r gp) as [D [DL [pc [HD [Hn [Hpc Hrun]]]]]];
    [lia | exact Hg |].
  split.
  - intros Hle; exists D, DL, pc; eexists.
    split; [exact HD|]; split; [exact Hpc|].
    rewrite Hrun, getLocalExtrema_ok by lia.
    split; reflexivity.
  - intros Hge; rewrite Hrun, getLocalExtrema_overflow by lia; reflexivity.
Qed.

Lemma DoGdetector_returns_witness :
  exists gp D DoG_levels pc kps,
    createGaussianPyramid pow_int cvt_luma blur_copy gray3
                          (PyInt 1) (PyInt 1) default_levels = Ok gp /\
    createDoGPyramid gp default_levels = Ok (D, DoG_levels) /\
    computePrincipalCurvature Sobel3 D = Ok pc /\
    getLocalExtrema D DoG_levels pc default_th_contrast default_th_r
    = Ok kps /\
    DoGdetector pow_int cvt_luma blur_copy Sobel3 gray3
                (PyInt 1) (PyInt 1) default_levels
                default_th_contrast default_th_r
    = Ok (kps, gp).
Proof.
  destruct (createGaussianPyramid pow_int cvt_luma blur_copy gray3
              (PyInt 1) (PyInt 1) default_levels)
    as [gp|e] eqn:Hg; [|vm_compute in Hg; discriminate Hg].
  exists gp.
  destruct (proj1 (DoGdetector_returns pow_int cvt_luma blur_copy Sobel3 gray3
                     (PyInt 1) (PyInt 1) default_levels
                     default_th_contrast default_th_r gp
                     ltac:(simpl; lia) Hg) ltac:(simpl; lia))
    as [D [DL [pc [kps H]]]].
  exists D, DL, pc, kps; split; [reflexivity | exact H].
Defined.

Lemma wrap_zero (d : dtype) (v : Q) : (v == 0)%Q -> (wrap d v == 0)%Q.
Proof.
  intros Hv; destruct d; cbn [wrap].
  - apply Qeq_bool_iff in Hv; rewrite Hv; reflexivity.
  - rewrite (Qfloor_comp v 0 Hv); reflexivity.
  - exact Hv.
Qed.

(** X15: every keypoint [(x, y, l)] that [DoGdetector] returns indexes the
    Gaussian pyramid returned with it: the pyramid has [len(levels)]
    levels, the pixel is off the border, the Gaussian levels [l] and [l+1]
    whose difference is the DoG level [l] exist (and so does [l+2]), and
    the difference of the two levels at the pixel, as the dtype of the
    pyramid stores it, reaches [th_contrast] in absolute value; for a
    pyramid of floats it is [|Gaussian[l+1] - Gaussian[l]|]. *)
Theorem DoGdetector_keypoints pow cvt blur sobel (im : image)
    (sigma0 k : number) (levels : list Z) (th_contrast th_r : Q)
    (kps : list keypoint) (gp : array3 Q) (x y l : nat) :
  DoGdetector pow cvt blur sobel im sigma0 k levels th_contrast th_r
  = Ok (kps, gp) ->
  In (x, y, l) kps ->
  nlev gp = List.length levels /\
  (1 <= x /\ x + 1 < imW gp) /\
  (1 <= y /\ y + 1 < imH gp) /\
  (1 <= l /\ l + 2 < nlev gp) /\
  (th_contrast <=
   Qabs (wrap (dtype3 gp) (at3 gp y x (l + 1) - at3 gp y x l)))%Q /\
  (dtype3 gp = float_ ->
   (th_contrast <= Qabs (at3 gp y x (l + 1) - at3 gp y x l))%Q).
Proof.
  intros Hrun Hin.
  apply DoGdetector_inv in Hrun.
  destruct Hrun as [D [DL [pc [Hg [Hd [_ Hx]]]]]].
  pose proof (createGaussianPyramid_levels _ _ _ _ _ _ _ _ Hg) as Hn.
  destruct (createDoGPyramid_inv _ _ _ _ Hd) as [_ [_ [_ [_ [Hs [_ Hat]]]]]].
  unfold shape3 in Hs; inversion Hs as [[HH HW HL]].
  apply (getLocalExtrema_keypoint_iff _ _ _ _ _ _ _ x y l Hx) in Hin.
  destruct Hin as [[Hl1 Hl2] [[Hx1 Hx2] [[Hy1 Hy2] [Hc _]]]].
  rewrite Hat in Hc by lia.
  repeat split; try lia; try exact Hc.
  intros Hf; rewrite Hf in Hc; exact Hc.
Qed.

Lemma DoGdetector_keypoints_witness :
  exists gp,
    DoGdetector pow_int cvt_luma blur_copy Sobel3 gray3
                (PyInt 0) (PyInt 2) default_levels 0 default_th_r
    = Ok ([(1, 1, 1); (1, 1, 2); (1, 1, 3)], gp) /\
    nlev gp = 6 /\
    (1 <= 1 /\ 1 + 1 < imW gp) /\
    (1 <= 1 /\ 1 + 1 < imH gp) /\
    (1 <= 2 /\ 2 + 2 < nlev gp) /\
    (0 <= Qabs (at3 gp 1 1 (2 + 1) - at3 gp 1 1 2))%Q.
Proof.
  assert (Hk : keypoints_of
                 (DoGdetector pow_int cvt_luma blur_copy Sobel3 gray3
                              (PyInt 0) (PyInt 2) default_levels
                              0 default_th_r)
               = Ok [(1, 1, 1); (1, 1, 2); (1, 1, 3)])
    by (vm_compute; reflexivity).
  destruct (DoGdetector pow_int cvt_luma blur_copy Sobel3 gray3
                        (PyInt 0) (PyInt 2) default_levels 0 default_th_r)
    as [[kps gp]|e] eqn:Hrun; [|discriminate Hk].
  cbn [keypoints_of fst] in Hk; inversion Hk; subst kps; clear Hk.
  exists gp; split; [reflexivity|].
  destruct (DoGdetector_keypoints _ _ _ _ _ _ _ _ _ _ _ _ 1 1 2 Hrun)
    as [Hn [Hx [Hy [Hl [_ Hf]]]]]; [simpl; auto|].
  split; [exact Hn|]; split; [exact Hx|]; split; [exact Hy|].
  split; [exact Hl|].
  apply Hf.
  apply DoGdetector_inv in Hrun; destruct Hrun as [D [DL [pc [Hg _]]]].
  apply createGaussianPyramid_inv in Hg.
  destruct Hg as [g [im' [Hgr [Hr [_ [_ [Hd _]]]]]]].
  cbn [gray_of gray3] in Hgr; inversion Hgr; subst g.
  vm_compute in Hr; inversion Hr; subst im'; exact Hd.
Defined.

Lemma Qabs_difference_zero (d : dtype) (a b th : Q) :
  (a == b)%Q -> (0 < th)%Q -> (Qabs (wrap d (a - b)) < th)%Q.
Proof.
  intros Hab Hth.
  assert (H0 : (wrap d (a - b) == 0)%Q)
    by (apply wrap_zero; rewrite Hab; ring).
  rewrite H0; exact Hth.
Qed.

(** X16: when the levels of the Gaussian pyramid returned by [DoGdetector]
    are equal to one another off the border (as for an image of constant
    intensity) and [th_contrast > 0], no keypoint is returned. *)
Theorem DoGdetector_flat pow cvt blur sobel (im : image)
    (sigma0 k : number) (levels : list Z) (th_contrast th_r : Q)
    (kps : list keypoint) (gp : array3 Q) :
  DoGdetector pow cvt blur sobel im sigma0 k levels th_contrast th_r
  = Ok (kps, gp) ->
  (0 < th_contrast)%Q ->
  (forall y x l,
      1 <= y -> y + 1 < imH gp -> 1 <= x -> x + 1 < imW gp ->
      l + 1 < nlev gp ->
      (at3 gp y x (l + 1) == at3 gp y x l)%Q) ->
  kps = [].
Proof.
  intros Hrun Hth Hflat.
  apply DoGdetector_inv in Hrun.
  destruct Hrun as [D [DL [pc [Hg [Hd [_ Hx]]]]]].
  destruct (createDoGPyramid_inv _ _ _ _ Hd)
    as [_ [Hle [_ [_ [Hs [_ Hat]]]]]].
  unfold shape3 in Hs; inversion Hs as [[HH HW HL]].
  apply getLocalExtrema_ok_inv in Hx; destruct Hx as [_ ->].
  apply concat_map_nil; intros l Hl; apply in_seq in Hl.
  apply level_rows_low_contrast.
  intros y x Hy1 Hy2 Hx1 Hx2.
  rewrite Hat by lia.
  apply Qabs_difference_zero; [|exact Hth].
  apply Hflat; lia.
Qed.

Lemma blur_copy_inv (src : array2 Q) (ksize : Z * Z) (sigma : number)
    (px : nat -> nat -> Q) :
  blur_copy src ksize sigma = Some px -> px = at2 src.
Proof.
  unfold blur_copy; destruct (_ && _); intros H; inversion H; reflexivity.
Qed.

Lemma DoGdetector_flat_witness :
  exists gp,
    DoGdetector pow_int cvt_luma blur_copy Sobel3 gray3
                (PyInt 1) (PyInt 1) default_levels
                default_th_contrast default_th_r
    = Ok ([], gp).
Proof.
  destruct (createGaussianPyramid pow_int cvt_luma blur_copy gray3
              (PyInt 1) (PyInt 1) default_levels)
    as [gp|e] eqn:Hg; [|vm_compute in Hg; discriminate Hg].
  destruct (DoGdetector_after_pyramid pow_int cvt_luma blur_copy Sobel3 gray3
              (PyInt 1) (PyInt 1) default_levels
              default_th_contrast default_th_r gp
              ltac:(simpl; lia) Hg) as [D [DL [pc [_ [Hn [_ Hrun]]]]]].
  rewrite getLocalExtrema_ok in Hrun by (simpl in Hn; lia).
  cbn [bind] in Hrun.
  exists gp.
  match type of Hrun with
  | _ = Ok (?ks, _) => assert (Hk : ks = [])
  end.
  { apply (DoGdetector_flat _ _ _ _ _ _ _ _ _ _ _ _ Hrun).
    - reflexivity.
    - intros y x l _ _ _ _ Hl.
      destruct (createGaussianPyramid_inv _ _ _ _ _ _ _ _ Hg)
        as [g [im' [_ [_ [_ [_ [_ [Hs Hlev]]]]]]]].
      unfold shape3 in Hs; inversion Hs as [[Hh Hw HL]].
      destruct (Hlev (l + 1)) as [s1 [sg1 [px1 [_ [Hb1 H1]]]]];
        [simpl; lia|].
      destruct (Hlev l) as [s0 [sg0 [px0 [_ [Hb0 H0]]]]]; [simpl; lia|].
      apply blur_copy_inv in Hb1; apply blur_copy_inv in Hb0.
      rewrite H1, H0, Hb1, Hb0; reflexivity. }
  rewrite Hk in Hrun; exact Hrun.
Defined.
(** ** The sign of the curvature ratio *)





(** ** The layout shown by displayPyramid *)

(** The array of the level [l] that [np.split] returns. *)
Lemma np_split_levels_ok (fn : string) (a : array3 Q) :
  1 <= nlev a ->
  np_split_levels fn a =
  Ok (map (fun l => Array3 (dtype3 a) (imH a) (imW a) 1
                           (fun y x l' => at3 a y x (l + l')))
          (seq 0 (nlev a))).
Proof.
  intros Hn; unfold np_split_levels.
  destruct (nlev a =? 0) eqn:E; [apply Nat.eqb_eq in E; lia | reflexivity].
Qed.

Lemma columns_at_slices (a : array3 Q) (n s l x y l' : nat) :
  l < n -> x < imW a ->
  columns_at
    (map (fun l0 => Array3 (dtype3 a) (imH a) (imW a) 1
                           (fun y x l' => at3 a y x (l0 + l')))
         (seq s n))
    y (l * imW a + x) l'
  = at3 a y x (s + l + l').
Proof.
  revert s l; induction n as [|n IH]; intros s l Hl Hx; [lia|].
  cbn [seq map columns_at imW at3].
  destruct l as [|l].
  - assert (E : (0 * imW a + x <? imW a) = true)
      by (apply Nat.ltb_lt; lia).
    rewrite E; f_equal; lia.
  - assert (E : (S l * imW a + x <? imW a) = false)
      by (apply Nat.ltb_ge; lia).
    rewrite E.
    replace (S l * imW a + x - imW a) with (l * imW a + x) by lia.
    rewrite IH by lia; f_equal; lia.
Qed.

Lemma slices_width (a : array3 Q) (n s : nat) :
  list_sum
    (map (@imW Q)
         (map (fun l0 => Array3 (dtype3 a) (imH a) (imW a) 1
                                (fun y x l' => at3 a y x (l0 + l')))
              (seq s n)))
  = n * imW a.
Proof.
  revert s; induction n as [|n IH]; intros s; [reflexivity|].
  change (imW a + list_sum
                    (map (@imW Q)
                         (map (fun l0 => Array3 (dtype3 a) (imH a) (imW a) 1
                                           (fun y x l' => at3 a y x (l0 + l')))
                              (seq (S s) n)))
          = S n * imW a).
  rewrite IH; lia.
Qed.

Lemma mosaic_ok (a : array3 Q) :
  1 <= nlev a ->
  exists m,
    mosaic a = Ok m /\
    shape3 m = (imH a, nlev a * imW a, 1) /\
    forall y x l,
      l < nlev a -> x < imW a -> at3 m y (l * imW a + x) 0 = at3 a y x l.
Proof.
  intros Hn; unfold mosaic.
  rewrite np_split_levels_ok by exact Hn; cbn [bind].
  unfold np_concatenate_axis1.
  destruct (nlev a) as [|n] eqn:En; [lia|].
  cbn [seq map].
  match goal with
  | |- context [forallb ?f ?ps] =>
      assert (Hall : forallb f ps = true)
  end.
  { apply forallb_forall; intros q Hq.
    apply in_map_iff in Hq; destruct Hq as [l0 [<- _]].
    cbn [imH nlev]; rewrite !Nat.eqb_refl; reflexivity. }
  rewrite Hall.
  eexists; split; [reflexivity|]; split.
  - unfold shape3; cbn [imH imW nlev].
    match goal with
    | |- context [list_sum (?h :: ?t)] =>
        change (list_sum (h :: t)) with (h + list_sum t)
    end.
    rewrite (slices_width a n 1); f_equal; f_equal; lia.
  - intros y x l Hl Hx; cbn [at3].
    pose proof (columns_at_slices a (S n) 0 l x y 0 Hl Hx) as Hc.
    cbn [seq map] in Hc; rewrite Hc; f_equal; lia.
Qed.

(** X18: [displayPyramid] lays the levels of the pyramid side by side, from
    left to right: for a pyramid of shape [(H, W, L)] with [L >= 1], the
    array that is normalised and shown has the shape [(H, L*W, 1)] and
    holds [im_pyramid[y, x, l]] at [(y, l*W + x)]; the function shows it in
    one window, waits for a key and closes the windows. *)
Theorem displayPyramid_layout (im_pyramid : array3 Q) :
  1 <= nlev im_pyramid ->
  exists m,
    mosaic im_pyramid = Ok m /\
    shape3 m = (imH im_pyramid, nlev im_pyramid * imW im_pyramid, 1) /\
    (forall y x l,
        l < nlev im_pyramid -> x < imW im_pyramid ->
        at3 m y (l * imW im_pyramid + x) 0 = at3 im_pyramid y x l) /\
    forall normalize shown,
      normalize m = Some shown ->
      displayPyramid normalize im_pyramid
      = Ok [Imshow "Pyramid of image" shown; WaitKey 0; DestroyAllWindows].
Proof.
  intros Hn; destruct (mosaic_ok im_pyramid Hn) as [m [Hm [Hs Hat]]].
  exists m; split; [exact Hm|]; split; [exact Hs|]; split; [exact Hat|].
  intros normalize shown Hshown; unfold displayPyramid.
  rewrite Hm; cbn [bind]; rewrite Hshown; reflexivity.
Qed.

Lemma displayPyramid_layout_witness :
  exists m,
    mosaic peak_pyramid = Ok m /\
    shape3 m = (4, 12, 1) /\
    at3 m 1 (1 * 4 + 1) 0 = at3 peak_pyramid 1 1 1 /\
    displayPyramid first_channel peak_pyramid
    = Ok [Imshow "Pyramid of image"
                 (Array2 (dtype3 m) (imH m) (imW m)
                         (fun y x => at3 m y x 0));
          WaitKey 0; DestroyAllWindows].
Proof.
  destruct (displayPyramid_layout peak_pyramid ltac:(simpl; lia))
    as [m [Hm [Hs [Hat Hshow]]]].
  exists m; split; [exact Hm|]; split; [exact Hs|]; split.
  - apply (Hat 1 1 1); simpl; lia.
  - apply Hshow; reflexivity.
Defined.

(** ** The order of the keypoints *)

Lemma StronglySorted_app (A : Type) (R : A -> A -> Prop) (l1 l2 : list A) :
  StronglySorted R l1 -> StronglySorted R l2 ->
  (forall a b, In a l1 -> In b l2 -> R a b) ->
  StronglySorted R (l1 ++ l2).
Proof.
  intros H1 H2 H12; induction H1 as [|a l1 Hl1 IH Ha]; simpl; [exact H2|].
  constructor.
  - apply IH; intros x y Hx Hy; apply H12; [right; exact Hx | exact Hy].
  - apply Forall_app; split; [exact Ha|].
    apply Forall_forall; intros b Hb; apply H12; [left; reflexivity | exact Hb].
Qed.

Lemma StronglySorted_map (A B : Type) (R : A -> A -> Prop)
    (R' : B -> B -> Prop) (f : A -> B) (l : list A) :
  (forall a b, R a b -> R' (f a) (f b)) ->
  StronglySorted R l -> StronglySorted R' (map f l).
Proof.
  intros Hf Hl; induction Hl as [|a l Hl IH Ha]; simpl; constructor.
  - exact IH.
  - apply Forall_map; eapply Forall_impl; [|exact Ha].
    intros b; apply Hf.
Qed.

Lemma StronglySorted_filter (A : Type) (R : A -> A -> Prop) (f : A -> bool)
    (l : list A) :
  StronglySorted R l -> StronglySorted R (filter f l).
Proof.
  intros Hl; induction Hl as [|a l Hl IH Ha]; simpl; [constructor|].
  destruct (f a); [|exact IH].
  constructor; [exact IH|].
  apply Forall_forall; intros b Hb; apply filter_In in Hb.
  rewrite Forall_forall in Ha; apply Ha; tauto.
Qed.

Lemma seq_sorted (s n : nat) : StronglySorted lt (seq s n).
Proof.
  revert s; induction n as [|n IH]; intros s; simpl; constructor.
  - apply IH.
  - apply Forall_forall; intros b Hb; apply in_seq in Hb; lia.
Qed.

Lemma list_prod_sorted (l1 l2 : list nat) :
  StronglySorted lt l1 -> StronglySorted lt l2 ->
  StronglySorted index_before (list_prod l1 l2).
Proof.
  intros H1 H2; induction H1 as [|a l1 Hl1 IH Ha]; simpl; [constructor|].
  apply StronglySorted_app.
  - apply StronglySorted_map with (R := lt); [|exact H2].
    intros b b' Hb; right; simpl; auto.
  - exact IH.
  - intros [a1 b1] [a2 b2] Hx Hy.
    apply in_map_iff in Hx; destruct Hx as [b [Hb _]]; inversion Hb; subst.
    apply in_prod_iff in Hy; destruct Hy as [Hy _].
    rewrite Forall_forall in Ha; left; simpl; apply Ha; exact Hy.
Qed.

Lemma level_rows_sorted (D : array3 Q) (th : Q) (l : nat) :
  StronglySorted kp_before (level_rows D th l).
Proof.
  unfold level_rows, np_where.
  apply StronglySorted_map with (R := index_before).
  - intros [i j] [i' j'] H; unfold kp_before, index_before in *.
    cbn [fst snd] in *; right; split; [reflexivity|lia].
  - apply StronglySorted_filter, list_prod_sorted; apply seq_sorted.
Qed.

Lemma concat_levels_sorted (D : array3 Q) (th : Q) (n s : nat) :
  StronglySorted kp_before
    (List.concat (map (level_rows D th) (seq s n))).
Proof.
  revert s; induction n as [|n IH]; intros s; simpl; [constructor|].
  apply StronglySorted_app; [apply level_rows_sorted | apply IH |].
  intros a b Ha Hb.
  apply level_rows_level in Ha.
  apply in_concat in Hb; destruct Hb as [ks [Hks Hb]].
  apply in_map_iff in Hks; destruct Hks as [l' [<- Hl']].
  apply level_rows_level in Hb; apply in_seq in Hl'.
  left; lia.
Qed.

(** X20: the keypoints are returned in increasing order of the level, then
    of the row [y], then of the column [x]. *)
Theorem getLocalExtrema_order (D : array3 Q) (DoG_levels : list Z)
    (pc : array3 Q) (th_contrast th_r : Q) (kps : list keypoint) :
  getLocalExtrema D DoG_levels pc th_contrast th_r = Ok kps ->
  StronglySorted kp_before kps.
Proof.
  intros Hrun; apply getLocalExtrema_ok_inv in Hrun.
  destruct Hrun as [_ ->]; apply concat_levels_sorted.
Qed.

Lemma getLocalExtrema_order_witness :
  StronglySorted kp_before
    [(1, 1, 1); (2, 1, 1); (1, 2, 1); (2, 2, 1)].
Proof.
  apply (getLocalExtrema_order peak_pyramid [0; 1; 2]%Z peak_pyramid 0
           default_th_r).
  vm_compute; reflexivity.
Defined.
